(** * Realtime voice session engine (src/App.tsx): model and properties

    The React component [App] of src/App.tsx is embedded as state-passing
    code over a record [World] that holds the state cells [messages] and
    [convState], the seven references used for audio processing and the
    ordered trace of the calls made on the browser and transport
    collaborators. Layout, the about dialog and scrolling are left out.

    Numbers: a JavaScript number that carries a time ([ctx.currentTime],
    [audioBuffer.duration], [nextStartTimeRef.current]) is a canonical
    rational [Qc]; [Math.max] and [+] are the exact ones, so binary64
    rounding is outside this model. What is stated of start times is
    stated with the additions of the program, in the order in which it
    performs them, and proved with no law of addition but that adding a
    duration, which is never negative, does not go back. An audio sample
    is a rational [Q].

    Inbound messages: [onmessage] reads a message through optional
    chaining but for the index [parts[0]] of line 97, so a model turn
    without [parts] is kept apart from one with an empty list of parts.

    Control: the runtime is single-threaded and every callback runs to its
    end before the next one starts; the two [await]s of
    [startConversation] are the only points where other callbacks come in
    between. *)

From Stdlib Require Import List String Ascii Bool ZArith QArith Qcanon Qabs Qround Lia Lqa.
Import ListNotations.

Local Open Scope string_scope.
Local Open Scope list_scope.

(** ** JavaScript values used by the component *)

Module Js.

(** [x || y] and [if (x)] on a string test that it is not empty. *)
Definition truthy (s : string) : bool :=
  match s with
  | EmptyString => false
  | String _ _ => true
  end.

(** An exception value; only [err.message] is ever read (line 165). It is
    [None] when the thrown value has no [message] property. *)
Record Error := { message : option string }.

(** [err.message || fallback] *)
Definition message_or (err : Error) (fallback : string) : string :=
  match message err with
  | Some m => if truthy m then m else fallback
  | None => fallback
  end.

(** [s += t] where [t] may be [undefined]. *)
Definition append_text (s : string) (t : option string) : string :=
  match t with
  | Some t => (s ++ t)%string
  | None => (s ++ "undefined")%string
  end.

(** [Math.max] on two finite numbers. *)
Definition Math_max (a b : Qc) : Qc :=
  match (a ?= b)%Qc with
  | Lt => b
  | _ => a
  end.

(** [Set.prototype.add] and [delete] on a set kept in insertion order. *)
Definition Set_add (x : nat) (s : list nat) : list nat :=
  if existsb (Nat.eqb x) s then s else s ++ [x].

Definition Set_delete (x : nat) (s : list nat) : list nat :=
  filter (fun y => negb (Nat.eqb x y)) s.

(** The outcome of an awaited promise. *)
Inductive Settled : Type :=
| Fulfilled
| Rejected (err : Error).

(** The value of an expression, or the exception its evaluation throws. *)
Inductive Outcome (A : Type) : Type :=
| Value (a : A)
| Raised (err : Error).
Arguments Value {A} a.
Arguments Raised {A} err.

End Js.

(** ** The PCM codec of ./services/audioUtils *)

Module AudioUtils.

Local Open Scope Z_scope.

(** The part of a Web Audio [AudioBuffer] in use: one channel of samples
    and the sample rate; [duration] is [length / sampleRate]. *)
Record AudioBuffer := {
  channelData : list Q;
  sampleRate : positive
}.

Definition duration (b : AudioBuffer) : Qc :=
  Q2Qc (Z.of_nat (List.length (channelData b)) # sampleRate b).

(** Modelled from the spec: the text-safe binary-to-text alphabet of the
    codec of section 4.1; the module ./services/audioUtils that holds it
    is missing from the sources. Base64 is taken, after the name
    [base64Audio] that src/App.tsx gives the payload. *)
Definition alphabet : list ascii :=
  list_ascii_of_string
    "ABCDEFGHIJKLMNOPQRSTUVWXYZabcdefghijklmnopqrstuvwxyz0123456789+/".

(** Modelled from the spec: the padding character of the same encoding. *)
Definition pad : ascii := "="%char.

(** Modelled from the spec: the character of a six-bit value, and back
    (part of the missing ./services/audioUtils). *)
Definition char_of_sextet (n : Z) : ascii :=
  nth (Z.to_nat n) alphabet pad.

Fixpoint index_of (c : ascii) (l : list ascii) (i : Z) : option Z :=
  match l with
  | [] => None
  | x :: l' => if Ascii.eqb c x then Some i else index_of c l' (i + 1)
  end.

Definition sextet_of_char (c : ascii) : option Z := index_of c alphabet 0.

(** Modelled from the spec: [encode] of ./services/audioUtils (missing
    from the sources), the binary-to-text step of section 4.1: three
    bytes become four characters, a last group of one or two bytes is
    padded. A byte is a [Z] in [0, 256). *)
Fixpoint encode (bytes : list Z) : string :=
  match bytes with
  | [] => EmptyString
  | [a] =>
      String (char_of_sextet (a / 4))
        (String (char_of_sextet (a mod 4 * 16))
           (String pad (String pad EmptyString)))
  | [a; b] =>
      String (char_of_sextet (a / 4))
        (String (char_of_sextet (a mod 4 * 16 + b / 16))
           (String (char_of_sextet (b mod 16 * 4))
              (String pad EmptyString)))
  | a :: b :: c :: rest =>
      String (char_of_sextet (a / 4))
        (String (char_of_sextet (a mod 4 * 16 + b / 16))
           (String (char_of_sextet (b mod 16 * 4 + c / 64))
              (String (char_of_sextet (c mod 64)) (encode rest))))
  end.

(** Modelled from the spec: [decode] of ./services/audioUtils (missing
    from the sources), the inverse of [encode]; malformed input is
    rejected ([None], the FormatError of section 4.1). *)
Fixpoint decode (base64 : string) : option (list Z) :=
  match base64 with
  | EmptyString => Some []
  | String c0 (String c1 (String c2 (String c3 rest))) =>
      match sextet_of_char c0, sextet_of_char c1 with
      | Some s0, Some s1 =>
          let a := s0 * 4 + s1 / 16 in
          if Ascii.eqb c2 pad then
            match rest with
            | EmptyString =>
                if Ascii.eqb c3 pad && (s1 mod 16 =? 0) then Some [a] else None
            | _ => None
            end
          else
            match sextet_of_char c2 with
            | Some s2 =>
                let b := s1 mod 16 * 16 + s2 / 4 in
                if Ascii.eqb c3 pad then
                  match rest with
                  | EmptyString => if s2 mod 4 =? 0 then Some [a; b] else None
                  | _ => None
                  end
                else
                  match sextet_of_char c3 with
                  | Some s3 =>
                      match decode rest with
                      | Some tl => Some (a :: b :: (s2 mod 4 * 64 + s3) :: tl)
                      | None => None
                      end
                  | None => None
                  end
            | None => None
            end
      | _, _ => None
      end
  | _ => None
  end.

(** Modelled from the spec: the 16-bit quantization of section 4.1. A
    sample in [-1, 1] is scaled by 2^15 and rounded to the nearest
    integer, and the one value that leaves the signed 16-bit range (the
    image of 1) takes the largest step. *)
Definition quantize (x : Q) : Z :=
  Z.max (-32768) (Z.min 32767 (Qfloor (x * 32768 + (1 # 2)))).

(** Modelled from the spec: the inverse scaling of section 4.1, from a
    16-bit step back to [-1, 1]. *)
Definition dequantize (k : Z) : Q := k # 32768.

(** Modelled from the spec: a signed 16-bit integer as two bytes, low byte
    first (the little-endian packing of section 4.1), and back. *)
Definition int16_to_bytes (k : Z) : list Z :=
  let u := k mod 65536 in [u mod 256; u / 256].

Definition int16_of_bytes (lo hi : Z) : Z :=
  let u := lo + 256 * hi in
  if u <? 32768 then u else u - 65536.

Fixpoint int16s_of_bytes (bytes : list Z) : option (list Z) :=
  match bytes with
  | [] => Some []
  | lo :: hi :: rest =>
      match int16s_of_bytes rest with
      | Some ks => Some (int16_of_bytes lo hi :: ks)
      | None => None
      end
  | [_] => None
  end.

(** Modelled from the spec: [createPcmBlob] of ./services/audioUtils
    (missing from the sources), the [encode] of section 4.1: 16-bit
    little-endian signed samples packed consecutively, then text-encoded. *)
Definition createPcmBlob (data : list Q) : string :=
  encode (flat_map (fun x => int16_to_bytes (quantize x)) data).

(** Modelled from the spec: [decodeAudioData] of ./services/audioUtils
    (missing from the sources): the bytes are read as 16-bit
    little-endian signed samples and scaled back to [-1, 1]. The
    component asks for one channel; the context is not consulted. *)
Definition decodeAudioData (data : list Z) (ctx : nat) (rate : positive)
    (numChannels : nat) : option AudioBuffer :=
  match int16s_of_bytes data with
  | Some ks => Some {| channelData := map dequantize ks; sampleRate := rate |}
  | None => None
  end.

(** Modelled from the spec: the codec pair [encode] / [decode] of section
    4.1 on sample sequences, which the missing ./services/audioUtils
    splits over the four functions above. *)
Definition pcm_encode (samples : list Q) : string := createPcmBlob samples.

Definition pcm_decode (payload : string) : option (list Q) :=
  match decode payload with
  | Some bytes =>
      match decodeAudioData bytes O 24000%positive 1%nat with
      | Some b => Some (channelData b)
      | None => None
      end
  | None => None
  end.

(** "[x] rounded to the nearest representable 16-bit step": [y] is a
    value a 16-bit sample can take, and no such value is closer to [x]. *)
Definition nearest_step (x y : Q) : Prop :=
  (exists k, -32768 <= k <= 32767 /\ y = dequantize k) /\
  forall j, -32768 <= j <= 32767 ->
    (Qabs (y - x) <= Qabs (dequantize j - x))%Q.

(** "Within one 16-bit quantization step". *)
Definition within_step (x y : Q) : Prop :=
  (Qabs (y - x) <= 1 # 32768)%Q.

(** The ranges of a byte and of a signed 16-bit integer. *)
Definition byte (b : Z) : Prop := 0 <= b < 256.

Definition int16 (k : Z) : Prop := -32768 <= k <= 32767.

(** The check that one sextet survives the alphabet, to be run on all 64. *)
Definition sextet_ok (n : Z) : bool :=
  match sextet_of_char (char_of_sextet n) with
  | Some m => m =? n
  | None => false
  end && negb (Ascii.eqb (char_of_sextet n) pad).

(** Five samples: both ends of the range, the middle, and two between. *)
Definition five_samples : list Q := [1; 0; -1; 1 # 2; -(1 # 3)]%Q.

End AudioUtils.

(** ** The component's data (src/unnamed/part_000 and the hooks of [App]) *)

Module App.

Import Js.

Inductive Sender : Type := user | ai.

(** [Message]: [id] is [Math.random().toString()], [timestamp] the value
    of [new Date()] as epoch milliseconds. *)
Record Message := {
  id : string;
  text : string;
  sender : Sender;
  timestamp : Z
}.

Record ConversationState := {
  isActive : bool;
  isConnecting : bool;
  error : option string
}.

(** The identity of a collaborator object: a media stream, an
    [AudioContext], a live session or an [AudioBufferSourceNode]. *)
Definition handle := nat.

(** [Transcription] of the SDK: its [text] is optional. *)
Record Transcription := { transcription_text : option string }.

(** [Blob], [Part] and [Content] of the SDK, as far as line 97 reads
    them; every property is optional. *)
Record Blob := { data : option string }.

Record Part := { inlineData : option Blob }.

Record Content := { parts : option (list Part) }.

(** The fields of a [LiveServerMessage] that [onmessage] reads, each
    through [message.serverContent?.]: a message without [serverContent]
    is one with no field set. *)
Record LiveServerMessage := {
  modelTurn : option Content;
  inputTranscription : option Transcription;
  outputTranscription : option Transcription;
  turnComplete : bool;
  interrupted : bool
}.

(** Calls on the collaborators and writes of the session state, in
    program order. [TrackStop] is the browser's way to release a media
    stream; it is listed with the other collaborator operations although
    no path of the component performs it. *)
Inductive Effect : Type :=
| SetConvState (s : ConversationState)
| GetUserMedia
| NewAudioContext (ctx : handle) (rate : positive)
| Connect (session : handle)
| CaptureStart (ctx : handle) (stream : handle)
| SessionClose (session : handle)
| AudioContextClose (ctx : handle)
| TrackStop (stream : handle)
| SourceStart (source : handle) (when : Qc)
| SourceStop (source : handle)
| ConsoleError.

Record World := {
  (* useState *)
  messages : list Message;
  convState : ConversationState;
  (* useRef *)
  sessionRef : option handle;
  audioContextInRef : option handle;
  audioContextOutRef : option handle;
  sourcesRef : list handle;           (* a Set, in insertion order *)
  nextStartTimeRef : Qc;
  currentInputTranscriptRef : string;
  currentOutputTranscriptRef : string;
  (* the [stream] local of the running [startConversation], which the
     [onopen] closure captures *)
  stream : option handle;
  (* collaborators *)
  trace : list Effect;
  nextHandle : handle
}.

Definition idle : ConversationState :=
  {| isActive := false; isConnecting := false; error := None |}.

(** The component as first mounted (lines 15-30). *)
Definition mount : World :=
  {| messages := [];
     convState := idle;
     sessionRef := None;
     audioContextInRef := None;
     audioContextOutRef := None;
     sourcesRef := [];
     nextStartTimeRef := 0%Qc;
     currentInputTranscriptRef := "";
     currentOutputTranscriptRef := "";
     stream := None;
     trace := [];
     nextHandle := O |}.

(** *** Field updates *)

Definition with_messages (v : list Message) (w : World) : World :=
  {| messages := v; convState := convState w; sessionRef := sessionRef w;
     audioContextInRef := audioContextInRef w;
     audioContextOutRef := audioContextOutRef w; sourcesRef := sourcesRef w;
     nextStartTimeRef := nextStartTimeRef w;
     currentInputTranscriptRef := currentInputTranscriptRef w;
     currentOutputTranscriptRef := currentOutputTranscriptRef w;
     stream := stream w; trace := trace w; nextHandle := nextHandle w |}.

Definition with_convState (v : ConversationState) (w : World) : World :=
  {| messages := messages w; convState := v; sessionRef := sessionRef w;
     audioContextInRef := audioContextInRef w;
     audioContextOutRef := audioContextOutRef w; sourcesRef := sourcesRef w;
     nextStartTimeRef := nextStartTimeRef w;
     currentInputTranscriptRef := currentInputTranscriptRef w;
     currentOutputTranscriptRef := currentOutputTranscriptRef w;
     stream := stream w; trace := trace w; nextHandle := nextHandle w |}.

Definition with_sessionRef (v : option handle) (w : World) : World :=
  {| messages := messages w; convState := convState w; sessionRef := v;
     audioContextInRef := audioContextInRef w;
     audioContextOutRef := audioContextOutRef w; sourcesRef := sourcesRef w;
     nextStartTimeRef := nextStartTimeRef w;
     currentInputTranscriptRef := currentInputTranscriptRef w;
     currentOutputTranscriptRef := currentOutputTranscriptRef w;
     stream := stream w; trace := trace w; nextHandle := nextHandle w |}.

Definition with_audioContextInRef (v : option handle) (w : World) : World :=
  {| messages := messages w; convState := convState w;
     sessionRef := sessionRef w; audioContextInRef := v;
     audioContextOutRef := audioContextOutRef w; sourcesRef := sourcesRef w;
     nextStartTimeRef := nextStartTimeRef w;
     currentInputTranscriptRef := currentInputTranscriptRef w;
     currentOutputTranscriptRef := currentOutputTranscriptRef w;
     stream := stream w; trace := trace w; nextHandle := nextHandle w |}.

Definition with_audioContextOutRef (v : option handle) (w : World) : World :=
  {| messages := messages w; convState := convState w;
     sessionRef := sessionRef w; audioContextInRef := audioContextInRef w;
     audioContextOutRef := v; sourcesRef := sourcesRef w;
     nextStartTimeRef := nextStartTimeRef w;
     currentInputTranscriptRef := currentInputTranscriptRef w;
     currentOutputTranscriptRef := currentOutputTranscriptRef w;
     stream := stream w; trace := trace w; nextHandle := nextHandle w |}.

Definition with_sourcesRef (v : list handle) (w : World) : World :=
  {| messages := messages w; convState := convState w;
     sessionRef := sessionRef w; audioContextInRef := audioContextInRef w;
     audioContextOutRef := audioContextOutRef w; sourcesRef := v;
     nextStartTimeRef := nextStartTimeRef w;
     currentInputTranscriptRef := currentInputTranscriptRef w;
     currentOutputTranscriptRef := currentOutputTranscriptRef w;
     stream := stream w; trace := trace w; nextHandle := nextHandle w |}.

Definition with_nextStartTimeRef (v : Qc) (w : World) : World :=
  {| messages := messages w; convState := convState w;
     sessionRef := sessionRef w; audioContextInRef := audioContextInRef w;
     audioContextOutRef := audioContextOutRef w; sourcesRef := sourcesRef w;
     nextStartTimeRef := v;
     currentInputTranscriptRef := currentInputTranscriptRef w;
     currentOutputTranscriptRef := currentOutputTranscriptRef w;
     stream := stream w; trace := trace w; nextHandle := nextHandle w |}.

Definition with_currentInputTranscriptRef (v : string) (w : World) : World :=
  {| messages := messages w; convState := convState w;
     sessionRef := sessionRef w; audioContextInRef := audioContextInRef w;
     audioContextOutRef := audioContextOutRef w; sourcesRef := sourcesRef w;
     nextStartTimeRef := nextStartTimeRef w;
     currentInputTranscriptRef := v;
     currentOutputTranscriptRef := currentOutputTranscriptRef w;
     stream := stream w; trace := trace w; nextHandle := nextHandle w |}.

Definition with_currentOutputTranscriptRef (v : string) (w : World) : World :=
  {| messages := messages w; convState := convState w;
     sessionRef := sessionRef w; audioContextInRef := audioContextInRef w;
     audioContextOutRef := audioContextOutRef w; sourcesRef := sourcesRef w;
     nextStartTimeRef := nextStartTimeRef w;
     currentInputTranscriptRef := currentInputTranscriptRef w;
     currentOutputTranscriptRef := v;
     stream := stream w; trace := trace w; nextHandle := nextHandle w |}.

Definition with_stream (v : option handle) (w : World) : World :=
  {| messages := messages w; convState := convState w;
     sessionRef := sessionRef w; audioContextInRef := audioContextInRef w;
     audioContextOutRef := audioContextOutRef w; sourcesRef := sourcesRef w;
     nextStartTimeRef := nextStartTimeRef w;
     currentInputTranscriptRef := currentInputTranscriptRef w;
     currentOutputTranscriptRef := currentOutputTranscriptRef w;
     stream := v; trace := trace w; nextHandle := nextHandle w |}.

Definition with_trace (v : list Effect) (w : World) : World :=
  {| messages := messages w; convState := convState w;
     sessionRef := sessionRef w; audioContextInRef := audioContextInRef w;
     audioContextOutRef := audioContextOutRef w; sourcesRef := sourcesRef w;
     nextStartTimeRef := nextStartTimeRef w;
     currentInputTranscriptRef := currentInputTranscriptRef w;
     currentOutputTranscriptRef := currentOutputTranscriptRef w;
     stream := stream w; trace := v; nextHandle := nextHandle w |}.

Definition with_nextHandle (v : handle) (w : World) : World :=
  {| messages := messages w; convState := convState w;
     sessionRef := sessionRef w; audioContextInRef := audioContextInRef w;
     audioContextOutRef := audioContextOutRef w; sourcesRef := sourcesRef w;
     nextStartTimeRef := nextStartTimeRef w;
     currentInputTranscriptRef := currentInputTranscriptRef w;
     currentOutputTranscriptRef := currentOutputTranscriptRef w;
     stream := stream w; trace := trace w; nextHandle := v |}.

(** *** A state and exception monad for the bodies of the callbacks *)

Inductive Completion (A : Type) : Type :=
| Normal (a : A) (w : World)
| Throw (err : Error) (w : World).
Arguments Normal {A} a w.
Arguments Throw {A} err w.

Definition M (A : Type) : Type := World -> Completion A.

Definition ret {A} (a : A) : M A := fun w => Normal a w.

Definition bind {A B} (c : M A) (k : A -> M B) : M B :=
  fun w =>
    match c w with
    | Normal a w' => k a w'
    | Throw err w' => Throw err w'
    end.

Definition throw {A} (err : Error) : M A := fun w => Throw err w.

(** [try { body } catch (err) { handler err }] *)
Definition try_catch {A} (body : M A) (handler : Error -> M A) : M A :=
  fun w =>
    match body w with
    | Normal a w' => Normal a w'
    | Throw err w' => handler err w'
    end.

Definition get : M World := fun w => Normal w w.
Definition modify (f : World -> World) : M unit := fun w => Normal tt (f w).
Definition emit (e : Effect) : M unit :=
  modify (fun w => with_trace (trace w ++ [e]) w).
Definition fresh : M handle :=
  fun w => Normal (nextHandle w) (with_nextHandle (S (nextHandle w)) w).

(** The world a callback leaves behind, whether it returned or threw
    (an exception that escapes a callback is not handled anywhere). *)
Definition final {A} (c : Completion A) : World :=
  match c with
  | Normal _ w => w
  | Throw _ w => w
  end.

Definition threw {A} (c : Completion A) : bool :=
  match c with
  | Normal _ _ => false
  | Throw _ _ => true
  end.

Declare Scope js_scope.
Delimit Scope js_scope with js.
Notation "x <- c ;; k" := (bind c (fun x => k))
  (at level 61, c at next level, right associativity) : js_scope.
Notation "c ;; k" := (bind c (fun _ => k))
  (at level 61, right associativity) : js_scope.
Local Open Scope js_scope.

(** [if (ref.current) { body ref.current }] *)
Definition when_some {A} (o : option A) (body : A -> M unit) : M unit :=
  match o with
  | Some a => body a
  | None => ret tt
  end.

Definition when (b : bool) (body : M unit) : M unit :=
  if b then body else ret tt.

(** *** React state setters (an updater runs on the latest state) *)

Definition setConvState (f : ConversationState -> ConversationState) : M unit :=
  w <- get ;;
  let s := f (convState w) in
  modify (with_convState s) ;;
  emit (SetConvState s).

Definition setMessages (f : list Message -> list Message) : M unit :=
  modify (fun w => with_messages (f (messages w)) w).

(** *** The callbacks of [App] *)

(** The TypeError of an index into [undefined]; nothing reads it. *)
Definition typeError : Error :=
  {| message := Some "Cannot read properties of undefined (reading '0')" |}.

(** Line 97, the initial value of [base64Audio]:
    [message.serverContent?.modelTurn?.parts[0]?.inlineData?.data]. Every
    step is guarded by [?.] but the index: [parts[0]] on a [modelTurn]
    that has no [parts] is a TypeError. *)
Definition base64Audio (message : LiveServerMessage) : Outcome (option string) :=
  match modelTurn message with
  | None => Value None
  | Some content =>
      match parts content with
      | None => Raised typeError
      | Some [] => Value None
      | Some (part :: _) =>
          Value (match inlineData part with
                 | Some blob => data blob
                 | None => None
                 end)
      end
  end.

(** An expression evaluated inside a callback. *)
Definition evaluate {A} (o : Outcome A) : M A :=
  match o with
  | Value a => ret a
  | Raised err => throw err
  end.

(** [decode] and [decodeAudioData] are imported from ./services/audioUtils,
    which is not part of the sources at hand; the component is modelled
    over any pair of them. [None] stands for a thrown exception. *)
Class Imports := {
  decode : string -> option (list Z);
  decodeAudioData :
    list Z -> handle -> positive -> nat -> option AudioUtils.AudioBuffer
}.

Section Component.

Context {audioUtils : Imports}.

(** What a callback reads from its surroundings: the output context's
    clock, and the values of the k-th [Math.random().toString()] and
    [new Date()] of the invocation. *)
Record Env := {
  currentTime : Qc;
  mathRandom : nat -> string;
  newDate : nat -> Z
}.

(** The value of an exception raised inside [audioUtils]; nothing reads it. *)
Definition decodeFailure : Error := {| message := None |}.

Definition try_option {A} (o : option A) : M A :=
  match o with
  | Some a => ret a
  | None => throw decodeFailure
  end.

(** Lines 40-54. *)
Definition stopConversation : M unit :=
  (w <- get ;;
   when_some (sessionRef w) (fun session =>
     emit (SessionClose session) ;;
     modify (with_sessionRef None))) ;;
  (w <- get ;;
   when_some (audioContextInRef w) (fun ctx =>
     emit (AudioContextClose ctx) ;;
     modify (with_audioContextInRef None))) ;;
  (w <- get ;;
   when_some (audioContextOutRef w) (fun ctx =>
     emit (AudioContextClose ctx) ;;
     modify (with_audioContextOutRef None))) ;;
  setConvState (fun _ =>
    {| isActive := false; isConnecting := false; error := None |}).

(** Lines 80-95. [audioContextInRef.current!] on a null reference is a
    TypeError; [stream] is always set when the transport can call this.
    The capture wiring (media stream source, script processor) is one
    effect; the frames it later sends are not modelled. *)
Definition onopen : M unit :=
  setConvState (fun _ =>
    {| isActive := true; isConnecting := false; error := None |}) ;;
  w <- get ;;
  match audioContextInRef w, stream w with
  | Some ctx, Some s => emit (CaptureStart ctx s)
  | _, _ => throw {| message := None |}
  end.

(** Lines 97-111: the audio part of [onmessage]. The continuation of
    [await decodeAudioData(...)] runs before any other callback, so the
    part is one uninterrupted step; a failure of line 97, of [decode] or
    of [decodeAudioData] leaves the function by an exception. *)
Definition onmessage_audio (env : Env) (message : LiveServerMessage) : M unit :=
  payload <- evaluate (base64Audio message) ;;
  w0 <- get ;;
  match payload, audioContextOutRef w0 with
  | Some payload, Some ctx =>
      when (truthy payload)
        (modify (fun w =>
           with_nextStartTimeRef
             (Math_max (nextStartTimeRef w) (currentTime env)) w) ;;
         data <- try_option (decode payload) ;;
         audioBuffer <- try_option (decodeAudioData data ctx 24000%positive 1%nat) ;;
         source <- fresh ;;
         w <- get ;;
         emit (SourceStart source (nextStartTimeRef w)) ;;
         modify (fun w =>
           with_nextStartTimeRef
             (nextStartTimeRef w + AudioUtils.duration audioBuffer)%Qc w) ;;
         modify (fun w => with_sourcesRef (Set_add source (sourcesRef w)) w))
  | _, _ => ret tt
  end.

(** Line 107: [source.onended]. *)
Definition onended (source : handle) : M unit :=
  modify (fun w => with_sourcesRef (Set_delete source (sourcesRef w)) w).

(** Lines 113-118. *)
Definition onmessage_transcription (message : LiveServerMessage) : M unit :=
  when_some (inputTranscription message) (fun t =>
    modify (fun w =>
      with_currentInputTranscriptRef
        (append_text (currentInputTranscriptRef w) (transcription_text t)) w)) ;;
  when_some (outputTranscription message) (fun t =>
    modify (fun w =>
      with_currentOutputTranscriptRef
        (append_text (currentOutputTranscriptRef w) (transcription_text t)) w)).

(** Lines 120-143. *)
Definition onmessage_turnComplete (env : Env) (message : LiveServerMessage) : M unit :=
  when (turnComplete message)
    (w <- get ;;
     let userText := currentInputTranscriptRef w in
     let aiText := currentOutputTranscriptRef w in
     let k := if truthy userText then 1%nat else 0%nat in
     when (truthy userText)
       (setMessages (fun prev =>
          (prev ++ [ {| id := mathRandom env 0; text := userText;
                        sender := user; timestamp := newDate env 0 |} ])%list)) ;;
     when (truthy aiText)
       (setMessages (fun prev =>
          (prev ++ [ {| id := mathRandom env k; text := aiText;
                        sender := ai; timestamp := newDate env k |} ])%list)) ;;
     modify (with_currentInputTranscriptRef "") ;;
     modify (with_currentOutputTranscriptRef "")).

(** [sourcesRef.current.forEach(s => s.stop())] *)
Fixpoint forEach (l : list handle) (f : handle -> M unit) : M unit :=
  match l with
  | [] => ret tt
  | x :: l' => f x ;; forEach l' f
  end.

(** Lines 145-149. *)
Definition onmessage_interrupted (message : LiveServerMessage) : M unit :=
  when (interrupted message)
    (w <- get ;;
     forEach (sourcesRef w) (fun s => emit (SourceStop s)) ;;
     modify (with_sourcesRef []) ;;
     modify (with_nextStartTimeRef 0%Qc)).

(** Lines 96-150. *)
Definition onmessage (env : Env) (message : LiveServerMessage) : M unit :=
  onmessage_audio env message ;;
  onmessage_transcription message ;;
  onmessage_turnComplete env message ;;
  onmessage_interrupted message.

(** The world that lines 113-149 leave, the parts of [onmessage] after the
    audio part. *)
Definition after_audio (env : Env) (message : LiveServerMessage) (w : World)
  : World :=
  final ((onmessage_transcription message ;;
          onmessage_turnComplete env message ;;
          onmessage_interrupted message) w).

(** Lines 151-155. *)
Definition onerror : M unit :=
  emit ConsoleError ;;
  setConvState (fun prev =>
    {| isActive := isActive prev; isConnecting := isConnecting prev;
       error := Some "Connection error occurred." |}) ;;
  stopConversation.

(** Lines 156-158. *)
Definition onclose : M unit :=
  setConvState (fun _ =>
    {| isActive := false; isConnecting := false; error := None |}).

(** The callbacks the transport and the audio sinks invoke. *)
Inductive Callback : Type :=
| Open
| ServerMessage (env : Env) (message : LiveServerMessage)
| Ended (source : handle)
| TransportError
| TransportClose.

Definition callback (c : Callback) : M unit :=
  match c with
  | Open => onopen
  | ServerMessage env message => onmessage env message
  | Ended source => onended source
  | TransportError => onerror
  | TransportClose => onclose
  end.

(** Callbacks run one after the other, each to its end; an exception that
    leaves one is not handled and the next one runs all the same. *)
Definition callbacks (cs : list Callback) (w : World) : World :=
  fold_left (fun w c => final (callback c w)) cs w.

(** [await p]: the callbacks that arrive while the function is suspended
    run ([meanwhile]), then the function resumes with the outcome of [p]. *)
Definition await (meanwhile : list Callback) (p : Settled) : M unit :=
  modify (callbacks meanwhile) ;;
  match p with
  | Fulfilled => ret tt
  | Rejected err => throw err
  end.

(** How the surroundings answer one call of [startConversation]. *)
Record Answers := {
  getUserMedia : Settled;
  duringGetUserMedia : list Callback;
  connect : Settled;
  duringConnect : list Callback
}.

(** Lines 56-167. The gain node [outNode] has no part in what follows and
    is left out. *)
Definition startConversation (a : Answers) : M unit :=
  setConvState (fun prev =>
    {| isActive := isActive prev; isConnecting := true; error := None |}) ;;
  try_catch
    (emit GetUserMedia ;;
     await (duringGetUserMedia a) (getUserMedia a) ;;
     s <- fresh ;;
     modify (with_stream (Some s)) ;;
     ctxIn <- fresh ;;
     emit (NewAudioContext ctxIn 16000%positive) ;;
     modify (with_audioContextInRef (Some ctxIn)) ;;
     ctxOut <- fresh ;;
     emit (NewAudioContext ctxOut 24000%positive) ;;
     modify (with_audioContextOutRef (Some ctxOut)) ;;
     session <- fresh ;;
     emit (Connect session) ;;
     await (duringConnect a) (connect a) ;;
     modify (with_sessionRef (Some session)))
    (fun err =>
       emit ConsoleError ;;
       setConvState (fun _ =>
         {| isActive := false; isConnecting := false;
            error := Some (message_or err "Failed to start microphone.") |})).

(** *** The session button (lines 253-283) *)

Inductive Handler : Type := StartConversation | StopConversation.

Record Button := { onClick : Handler; disabled : bool }.

Definition sessionButton (s : ConversationState) : Button :=
  if negb (isActive s)
  then {| onClick := StartConversation; disabled := isConnecting s |}
  else {| onClick := StopConversation; disabled := false |}.

(** A click on the rendered button; a disabled button runs nothing. *)
Definition click (a : Answers) : M unit :=
  w <- get ;;
  let b := sessionButton (convState w) in
  if disabled b then ret tt
  else match onClick b with
       | StartConversation => startConversation a
       | StopConversation => stopConversation
       end.

(** *** Observations on inbound messages *)

(** A message that line 97 can read: its [modelTurn], if any, has
    [parts]. *)
Definition readable (message : LiveServerMessage) : bool :=
  match base64Audio message with
  | Value _ => true
  | Raised _ => false
  end.

(** What the audio part of [onmessage] finds in a message, given the
    output context: no chunk to play, a [modelTurn] that line 97 cannot
    read, a chunk that fails to decode, or a chunk decoded to a buffer of
    some duration. *)
Inductive Chunk : Type :=
| NoAudio
| Unreadable
| Malformed
| Decoded (d : Qc).

Definition chunk (ctx : handle) (message : LiveServerMessage) : Chunk :=
  match base64Audio message with
  | Raised _ => Unreadable
  | Value (Some payload) =>
      if truthy payload then
        match decode payload with
        | Some data =>
            match decodeAudioData data ctx 24000%positive 1%nat with
            | Some audioBuffer => Decoded (AudioUtils.duration audioBuffer)
            | None => Malformed
            end
        | None => Malformed
        end
      else NoAudio
  | Value None => NoAudio
  end.

Definition server_messages (ms : list (Env * LiveServerMessage)) : list Callback :=
  map (fun em => ServerMessage (fst em) (snd em)) ms.

(** A callback that reads the output clock reads a time not before [t]. *)
Definition not_before (t : Qc) (c : Callback) : Prop :=
  match c with
  | ServerMessage env _ => (t <= currentTime env)%Qc
  | _ => True
  end.

(** The text a turn buffer holds once the fragment of a message, if any,
    is added to it. *)
Definition pending (fragment : option Transcription) (buffer : string) : string :=
  match fragment with
  | Some t => append_text buffer (transcription_text t)
  | None => buffer
  end.

(** The messages that lines 124-139 append for the two turn buffers. *)
Definition flushed (env : Env) (userText aiText : string) : list Message :=
  (if truthy userText
   then [ {| id := mathRandom env 0; text := userText; sender := user;
             timestamp := newDate env 0 |} ]
   else [])
  ++ (if truthy aiText
      then let k := if truthy userText then 1%nat else 0%nat in
           [ {| id := mathRandom env k; text := aiText; sender := ai;
                timestamp := newDate env k |} ]
      else []).

(** The two ways [startConversation] fails (section 7 of the spec). *)
Inductive Category : Type := PermissionError | TransportOpenError.

Definition fails (a : Answers) (c : Category) (err : Error) : Prop :=
  match c with
  | PermissionError => getUserMedia a = Rejected err
  | TransportOpenError => getUserMedia a = Fulfilled /\ connect a = Rejected err
  end.

(** The start errors as section 7 of the spec has them: a text fixed by
    the category of the failure alone. *)
Definition stable_start_errors : Prop :=
  exists text : Category -> string,
    forall a w c err,
      fails a c err ->
      error (convState (final (startConversation a w))) = Some (text c).

(** [start()] guarded inside the function itself: no effect while Active. *)
Definition start_guarded : Prop :=
  forall a w,
    isActive (convState w) = true -> final (startConversation a w) = w.

End Component.

(** *** Observations on traces *)

(** What a step added to the trace. *)
Definition new_trace (before after : World) : list Effect :=
  skipn (List.length (trace before)) (trace after).

Definition closes_session (s : handle) (e : Effect) : bool :=
  match e with
  | SessionClose s' => Nat.eqb s s'
  | _ => false
  end.

Definition closes_context (c : handle) (e : Effect) : bool :=
  match e with
  | AudioContextClose c' => Nat.eqb c c'
  | _ => false
  end.

Definition stops_track (s : handle) (e : Effect) : bool :=
  match e with
  | TrackStop s' => Nat.eqb s s'
  | _ => false
  end.

Definition is_TrackStop (e : Effect) : bool :=
  match e with
  | TrackStop _ => true
  | _ => false
  end.

Definition is_None {A} (o : option A) : bool :=
  match o with
  | None => true
  | Some _ => false
  end.

(** A resource held in [before] is released by a step when the step calls
    its closing operation and clears its reference. *)
Definition ref_released (close : handle -> Effect -> bool)
    (ref : World -> option handle) (before after : World) : bool :=
  match ref before with
  | Some h => existsb (close h) (new_trace before after) && is_None (ref after)
  | None => true
  end.

Definition handles_released (before after : World) : bool :=
  ref_released closes_session sessionRef before after
  && ref_released closes_context audioContextInRef before after
  && ref_released closes_context audioContextOutRef before after.

Definition stream_released (before after : World) : bool :=
  match stream before with
  | Some s => existsb (stops_track s) (new_trace before after)
  | None => true
  end.

(** The session handle, the microphone stream and both audio contexts. *)
Definition all_released (before after : World) : bool :=
  handles_released before after && stream_released before after.

(** The start times of the scheduled segments, in scheduling order. *)
Definition starts (tr : list Effect) : list Qc :=
  flat_map (fun e => match e with SourceStart _ t => [t] | _ => [] end) tr.

(** The sources stopped by force, in order. *)
Definition stops (tr : list Effect) : list handle :=
  flat_map (fun e => match e with SourceStop s => [s] | _ => [] end) tr.

(** The sessions asked for, and those among them never closed by the
    component. *)
Definition connects (tr : list Effect) : list handle :=
  flat_map (fun e => match e with Connect s => [s] | _ => [] end) tr.

Definition unclosed_sessions (tr : list Effect) : list handle :=
  filter (fun s => negb (existsb (closes_session s) tr)) (connects tr).

Definition sum (ds : list Qc) : Qc := fold_right Qcplus 0%Qc ds.

(** Back-to-back start times: segment [i] starts at [t0] plus the
    durations of the segments before it. *)
Definition gapless (t0 : Qc) (ds : list Qc) : list Qc :=
  map (fun i => (t0 + sum (firstn i ds))%Qc) (seq 0 (List.length ds)).

(** The start times of segments that play back to back: the first at [t],
    each other one at the cursor that line 109 leaves after the one before
    it, so the durations are added one at a time in the order of arrival. *)
Fixpoint back_to_back (t : Qc) (ds : list Qc) : list Qc :=
  match ds with
  | [] => []
  | d :: ds' => t :: back_to_back (t + d)%Qc ds'
  end.

(** Chunks of durations [ds] that each arrive no later than the end of
    the segment before: the clock that each one reads is not past the
    cursor, which is at [cursor] for the first of them. *)
Fixpoint in_time (cursor : Qc) (ms : list (Env * LiveServerMessage))
    (ds : list Qc) : Prop :=
  match ms, ds with
  | em :: ms', d :: ds' =>
      (currentTime (fst em) <= cursor)%Qc /\ in_time (cursor + d)%Qc ms' ds'
  | _, _ => True
  end.

(** The sender and the text of each message of a list. *)
Definition said (ms : list Message) : list (Sender * string) :=
  map (fun m => (sender m, text m)) ms.

(** Two worlds that differ at most in the playback cursor. *)
Definition same_but_cursor (w1 w2 : World) : Prop :=
  with_nextStartTimeRef 0%Qc w1 = with_nextStartTimeRef 0%Qc w2.

(** Two worlds that differ at most in the playback cursor, and in a way
    no reading of the clock at [t] or later can tell. *)
Definition same_from (t : Qc) (w1 w2 : World) : Prop :=
  same_but_cursor w1 w2 /\
  forall t', (t <= t')%Qc ->
    Math_max (nextStartTimeRef w1) t' = Math_max (nextStartTimeRef w2) t'.

(** The closing calls of [stopConversation], one for each reference that
    is set. *)
Definition closes (w : World) : list Effect :=
  match sessionRef w with Some s => [SessionClose s] | None => [] end
  ++ match audioContextInRef w with Some c => [AudioContextClose c] | None => [] end
  ++ match audioContextOutRef w with Some c => [AudioContextClose c] | None => [] end.

(** A step only adds to the trace. *)
Definition extends (before after : World) : Prop :=
  exists added, trace after = trace before ++ added.

Definition appends {A} (c : M A) : Prop :=
  forall w, extends w (final (c w)).


(** *** The component with the codec of [AudioUtils] *)

Module Live.

Definition audioUtils : Imports :=
  {| decode := AudioUtils.decode;
     decodeAudioData := AudioUtils.decodeAudioData |}.

Definition onmessage := @onmessage audioUtils.
Definition onmessage_audio := @onmessage_audio audioUtils.
Definition chunk := @chunk audioUtils.
Definition callbacks := @callbacks audioUtils.
Definition startConversation := @startConversation audioUtils.
Definition click := @click audioUtils.

(** Microphone granted, transport opened, [onopen] delivered before the
    session promise resolves. *)
Definition granted : Answers :=
  {| getUserMedia := Fulfilled; duringGetUserMedia := [];
     connect := Fulfilled; duringConnect := [Open] |}.

(** A first session, up and running. *)
Definition active : World := final (startConversation granted mount).

(** The surroundings of a callback that reads the output clock at [t]. *)
Definition at_time (t : Q) : Env :=
  {| currentTime := Q2Qc t;
     mathRandom := fun k => if Nat.eqb k 0 then "0.25" else "0.75";
     newDate := fun k => 1700000000000%Z |}.

(** A model turn of one part, which carries a chunk. *)
Definition inline (payload : string) : Content :=
  {| parts := Some [ {| inlineData := Some {| data := Some payload |} |} ] |}.

(** A message with an audio chunk and nothing else. *)
Definition audio (payload : string) : LiveServerMessage :=
  {| modelTurn := Some (inline payload); inputTranscription := None;
     outputTranscription := None; turnComplete := false;
     interrupted := false |}.

(** A message with no audio chunk. *)
Definition control (input output : option string) (turn barge : bool)
  : LiveServerMessage :=
  {| modelTurn := None;
     inputTranscription :=
       option_map (fun t => {| transcription_text := Some t |}) input;
     outputTranscription :=
       option_map (fun t => {| transcription_text := Some t |}) output;
     turnComplete := turn; interrupted := barge |}.

(** Ten milliseconds of silence at 24 kHz, as the transport carries them. *)
Definition silence : string :=
  AudioUtils.createPcmBlob (repeat 0%Q 240).

Definition silence_duration : Qc := Q2Qc (240 # 24000).

(** A payload that is not base64. *)
Definition garbled : string := "!!!!".

(** Three chunks, each in time: two at once, the third while the first
    still plays. *)
Definition three_chunks : list (Env * LiveServerMessage) :=
  [(at_time 1, audio silence); (at_time 1, audio silence);
   (at_time (101 # 100), audio silence)].

Definition playing : World := callbacks (server_messages three_chunks) active.

(** Two chunks, the second long after the first has ended. *)
Definition late_chunks : list (Env * LiveServerMessage) :=
  [(at_time 1, audio silence); (at_time 5, audio silence)].

(** A session that played one chunk at clock 1, was stopped with the
    button, and was started again with the button. *)
Definition restarted : World :=
  final (click granted
    (final (click granted
       (callbacks [ServerMessage (at_time 1) (audio silence)] active)))).

(** The spec's example of a turn: three fragments, then turn complete. *)
Definition fragments : list Callback :=
  [ServerMessage (at_time 1) (control (Some "Hello ") None false false);
   ServerMessage (at_time 1) (control (Some "world") None false false);
   ServerMessage (at_time 1) (control None (Some "Hi!") false false)].

Definition turn_end : LiveServerMessage := control None None true false.

Definition barge_in : LiveServerMessage := control None None false true.

(** A message whose chunk is garbled and that also ends a turn. *)
Definition garbled_turn_end : LiveServerMessage :=
  {| modelTurn := Some (inline garbled);
     inputTranscription := Some {| transcription_text := Some "lost" |};
     outputTranscription := None; turnComplete := true;
     interrupted := false |}.

(** A message that ends a turn and whose model turn has no parts. *)
Definition bare_turn_end : LiveServerMessage :=
  {| modelTurn := Some {| parts := None |};
     inputTranscription := Some {| transcription_text := Some "lost" |};
     outputTranscription := None; turnComplete := true;
     interrupted := false |}.

(** The microphone is refused with the given diagnostic. *)
Definition refused (diagnostic : string) : Answers :=
  {| getUserMedia := Rejected {| message := Some diagnostic |};
     duringGetUserMedia := [];
     connect := Fulfilled; duringConnect := [] |}.

End Live.

End App.

(** ** Runs of the component, and the page it renders *)

Module Page.

Import Js App.

Section Runs.

Context {audioUtils : Imports}.

(** What happens to the mounted component: a click on the session button,
    or a callback from the transport or from an audio source. A click
    that starts a session carries the answers of that start, with the
    callbacks that arrive at its two [await]s; clicks made while a start
    is suspended are not part of a run. *)
Inductive Event : Type :=
| Click (a : Answers)
| Transport (c : Callback).

Definition step (w : World) (e : Event) : World :=
  match e with
  | Click a => final (click a w)
  | Transport c => final (callback c w)
  end.

Definition run (es : list Event) (w : World) : World := fold_left step es w.

(** The world in which [startConversation] resumes after the microphone
    is granted: lines 63-78, up to the second [await]. *)
Definition acquire (w : World) : World :=
  let n := nextHandle w in
  with_nextHandle (S (S (S (S n))))
    (with_trace
       (trace w ++ [NewAudioContext (S n) 16000%positive;
                    NewAudioContext (S (S n)) 24000%positive;
                    Connect (S (S (S n)))])
       (with_audioContextOutRef (Some (S (S n)))
          (with_audioContextInRef (Some (S n))
             (with_stream (Some n) w)))).

(** The [catch] block, lines 163-166. *)
Definition caught (err : Error) (w : World) : World :=
  let s := {| isActive := false; isConnecting := false;
              error := Some (message_or err "Failed to start microphone.") |} in
  with_trace (trace w ++ [ConsoleError; SetConvState s]) (with_convState s w).

(** Line 57 and the call of line 60. *)
Definition begin (w : World) : World :=
  let s := {| isActive := isActive (convState w); isConnecting := true;
              error := None |} in
  with_trace (trace w ++ [SetConvState s; GetUserMedia]) (with_convState s w).

(** A message whose audio part cannot throw in a world: line 97 can read
    it and, if there is an output context, its chunk is not a malformed
    one. *)
Definition audio_returns (w : World) (message : LiveServerMessage) : Prop :=
  readable message = true
  /\ match audioContextOutRef w with
     | Some ctx => chunk ctx message <> Malformed
     | None => True
     end.

End Runs.

(** *** Observations *)

Definition closed_sessions (tr : list Effect) : list handle :=
  flat_map (fun e => match e with SessionClose s => [s] | _ => [] end) tr.

Definition closed_contexts (tr : list Effect) : list handle :=
  flat_map (fun e => match e with AudioContextClose c => [c] | _ => [] end) tr.

Definition created_contexts (tr : list Effect) : list handle :=
  flat_map (fun e => match e with NewAudioContext c _ => [c] | _ => [] end) tr.

Definition started (tr : list Effect) : list handle :=
  flat_map (fun e => match e with SourceStart s _ => [s] | _ => [] end) tr.

(** The handle a reference holds, if any. *)
Definition held (o : option handle) : list handle :=
  match o with
  | Some h => [h]
  | None => []
  end.

(** The four shapes of the session state: idle, connecting, active, and
    idle with an error. *)
Definition shaped (s : ConversationState) : bool :=
  negb (isActive s && isConnecting s)
  && (is_None (error s) || negb (isActive s || isConnecting s)).

(** A callback that carries no interrupted flag. *)
Definition uninterrupted (c : Callback) : Prop :=
  match c with
  | ServerMessage _ message => interrupted message = false
  | _ => True
  end.

(** A callback other than an inbound message. *)
Definition not_a_message (c : Callback) : Prop :=
  match c with
  | ServerMessage _ _ => False
  | _ => True
  end.

(** A start during whose two waits no inbound message arrives. *)
Definition quiet (a : Answers) : Prop :=
  Forall not_a_message (duringGetUserMedia a)
  /\ Forall not_a_message (duringConnect a).

(** What a fragment adds to a turn buffer (lines 114 and 117). *)
Definition fragment_text (t : option Transcription) : string :=
  match t with
  | Some t => append_text "" (transcription_text t)
  | None => ""
  end.

(** The fragments of one side of a list of messages, joined in order. *)
Definition joined (side : LiveServerMessage -> option Transcription)
    (ms : list (Env * LiveServerMessage)) : string :=
  fold_right String.append ""
    (map (fun em => fragment_text (side (snd em))) ms).

(** The handles that the references hold are younger than the next one,
    what was closed too, no reference holds a closed handle, nothing was
    closed twice, and the two contexts differ. *)
Record Handles_ok (w : World) : Prop := {
  sessions_once : NoDup (closed_sessions (trace w));
  contexts_once : NoDup (closed_contexts (trace w));
  session_open :
    forall h, sessionRef w = Some h -> ~ In h (closed_sessions (trace w));
  input_open :
    forall c, audioContextInRef w = Some c -> ~ In c (closed_contexts (trace w));
  output_open :
    forall c, audioContextOutRef w = Some c -> ~ In c (closed_contexts (trace w));
  contexts_differ :
    forall a b, audioContextInRef w = Some a -> audioContextOutRef w = Some b ->
      a <> b;
  session_known : forall h, sessionRef w = Some h -> (h < nextHandle w)%nat;
  input_known : forall c, audioContextInRef w = Some c -> (c < nextHandle w)%nat;
  output_known : forall c, audioContextOutRef w = Some c -> (c < nextHandle w)%nat;
  closed_sessions_known :
    Forall (fun h => (h < nextHandle w)%nat) (closed_sessions (trace w));
  closed_contexts_known :
    Forall (fun h => (h < nextHandle w)%nat) (closed_contexts (trace w))
}.

(** A step that closes nothing and leaves the three references alone. *)
Definition keeps_handles (w w' : World) : Prop :=
  sessionRef w' = sessionRef w
  /\ audioContextInRef w' = audioContextInRef w
  /\ audioContextOutRef w' = audioContextOutRef w
  /\ (nextHandle w <= nextHandle w')%nat
  /\ closed_sessions (trace w') = closed_sessions (trace w)
  /\ closed_contexts (trace w') = closed_contexts (trace w).

(** A step that closes what the three references hold and clears them. *)
Definition closes_handles (w w' : World) : Prop :=
  sessionRef w' = None
  /\ audioContextInRef w' = None
  /\ audioContextOutRef w' = None
  /\ nextHandle w' = nextHandle w
  /\ closed_sessions (trace w') =
     closed_sessions (trace w) ++ held (sessionRef w)
  /\ closed_contexts (trace w') =
     closed_contexts (trace w)
     ++ held (audioContextInRef w) ++ held (audioContextOutRef w).

(** A session handle that exists, is in no reference and is not closed. *)
Definition spare (h : handle) (w : World) : Prop :=
  (h < nextHandle w)%nat
  /\ ~ In h (closed_sessions (trace w))
  /\ sessionRef w <> Some h.

(** An audio context that exists, is in neither reference and is not
    closed. *)
Definition lost (c : handle) (w : World) : Prop :=
  (c < nextHandle w)%nat
  /\ ~ In c (closed_contexts (trace w))
  /\ audioContextInRef w <> Some c
  /\ audioContextOutRef w <> Some c.

(** Every source in the active set was started and not stopped by force,
    no source was started or stopped twice, and every source is younger
    than the next handle. *)
Record Sources_ok (w : World) : Prop := {
  started_once : NoDup (started (trace w));
  stopped_once : NoDup (stops (trace w));
  stopped_started : incl (stops (trace w)) (started (trace w));
  active_once : NoDup (sourcesRef w);
  active_started : incl (sourcesRef w) (started (trace w));
  active_running : forall s, In s (sourcesRef w) -> ~ In s (stops (trace w));
  started_known :
    Forall (fun s => (s < nextHandle w)%nat) (started (trace w))
}.

(** *** The page (lines 169-333), as far as it depends on the state *)

Inductive Justify : Type := justify_end | justify_start.

Record Bubble := {
  justify : Justify;
  bubble_text : string
}.

Record View := {
  placeholder : bool;
  bubbles : list Bubble;
  wave : bool;
  errorBanner : option string;
  statusLine : string;
  button : Button
}.

Definition is_user (s : Sender) : bool :=
  match s with
  | user => true
  | ai => false
  end.

(** [convState.error && <div>...{convState.error}</div>]: nothing is
    rendered for [null], nor for the empty string. *)
Definition render (messages : list Message) (convState : ConversationState)
  : View :=
  {| placeholder :=
       Nat.eqb (List.length messages) 0
       && negb (isActive convState) && negb (isConnecting convState);
     bubbles :=
       map (fun m =>
              {| justify := if is_user (sender m) then justify_end
                            else justify_start;
                 bubble_text := text m |}) messages;
     wave := isActive convState;
     errorBanner :=
       match error convState with
       | Some e => if truthy e then Some e else None
       | None => None
       end;
     statusLine :=
       if isActive convState then "I am listening... go ahead and speak!"
       else "Click the button to start speaking";
     button := sessionButton convState |}.

Definition view (w : World) : View := render (messages w) (convState w).

(** *** A live page, with the codec of [AudioUtils] *)

Module Scenes.

Import App.Live.

Definition run := @run audioUtils.

(** A session that plays a chunk and is ended by a transport error, then a
    second session that is ended with the button. *)
Definition story : list Event :=
  [Click granted;
   Transport (ServerMessage (at_time 0) (audio silence));
   Transport TransportError;
   Click granted;
   Transport (ServerMessage (at_time 1) (audio silence));
   Transport (ServerMessage (at_time 1) barge_in);
   Click granted].

(** The microphone is granted and the transport refuses to open. *)
Definition dropped : Answers :=
  {| getUserMedia := Fulfilled; duringGetUserMedia := [];
     connect := Rejected {| message := Some "Network error" |};
     duringConnect := [] |}.

(** The fragments of the spec's example turn, as they arrive. *)
Definition spoken : list (Env * LiveServerMessage) :=
  [(at_time 1, control (Some "Hello ") None false false);
   (at_time 1, control (Some "world") None false false);
   (at_time 1, control None (Some "Hi!") false false)].

(** A running session after the example turn is complete. *)
Definition talked : World :=
  callbacks (fragments ++ [ServerMessage (at_time 2) turn_end]) active.

(** A barge-in that still carries a chunk. *)
Definition barge_in_with_chunk : LiveServerMessage :=
  {| modelTurn := Some (inline silence); inputTranscription := None;
     outputTranscription := None; turnComplete := false;
     interrupted := true |}.

End Scenes.

End Page.

(** * Properties *)

Import Js App.

(** ** The monad and the trace *)

Lemma skipn_length_app {A} (l added : list A) :
  skipn (List.length l) (l ++ added) = added.
Proof. induction l as [|x l IH]; simpl; auto. Qed.

Lemma new_trace_app w w' added :
  trace w' = trace w ++ added -> new_trace w w' = added.
Proof. unfold new_trace. intros ->. apply skipn_length_app. Qed.

Lemma extends_refl w : extends w w.
Proof. exists []. now rewrite app_nil_r. Qed.

Lemma extends_same_trace w w' : trace w' = trace w -> extends w w'.
Proof. intro H. exists []. now rewrite app_nil_r. Qed.

Lemma extends_trans w1 w2 w3 : extends w1 w2 -> extends w2 w3 -> extends w1 w3.
Proof.
  intros [a Ha] [b Hb]. exists (a ++ b). now rewrite Hb, Ha, app_assoc.
Qed.

Lemma appends_ret {A} (a : A) : appends (ret a).
Proof. intro w. apply extends_refl. Qed.

Lemma appends_throw {A} err : appends (@throw A err).
Proof. intro w. apply extends_refl. Qed.

Lemma appends_bind {A B} (c : M A) (k : A -> M B) :
  appends c -> (forall a, appends (k a)) -> appends (bind c k).
Proof.
  intros Hc Hk w. unfold bind. specialize (Hc w).
  destruct (c w) as [a w'|err w']; simpl in *; auto.
  eapply extends_trans; [exact Hc|apply Hk].
Qed.

Lemma appends_try_catch {A} (body : M A) handler :
  appends body -> (forall err, appends (handler err)) ->
  appends (try_catch body handler).
Proof.
  intros Hb Hh w. unfold try_catch. specialize (Hb w).
  destruct (body w) as [a w'|err w']; simpl in *; auto.
  eapply extends_trans; [exact Hb|apply Hh].
Qed.

Lemma appends_emit e : appends (emit e).
Proof. intro w. exists [e]. reflexivity. Qed.

Lemma appends_modify f :
  (forall w, extends w (f w)) -> appends (modify f).
Proof. intros H w. apply H. Qed.

Lemma appends_get : appends get.
Proof. intro w. apply extends_refl. Qed.

Lemma appends_fresh : appends fresh.
Proof. intro w. exists []. simpl. now rewrite app_nil_r. Qed.

Lemma appends_when b c : appends c -> appends (when b c).
Proof. destruct b; simpl; auto. intros _. apply appends_ret. Qed.

Lemma appends_when_some {A} (o : option A) body :
  (forall a, appends (body a)) -> appends (when_some o body).
Proof. destruct o; simpl; auto. intros _. apply appends_ret. Qed.

Lemma appends_forEach l f :
  (forall x, appends (f x)) -> appends (forEach l f).
Proof.
  intro H. induction l as [|x l IH]; simpl.
  - apply appends_ret.
  - apply appends_bind; auto.
Qed.

Create HintDb appends.

#[local] Hint Resolve appends_ret appends_throw appends_emit appends_get
  appends_fresh extends_refl : appends.
#[local] Hint Extern 2 (appends (when _ _)) => apply appends_when : appends.
#[local] Hint Extern 2 (appends (when_some _ _)) =>
  apply appends_when_some; intro : appends.
#[local] Hint Extern 2 (appends (forEach _ _)) =>
  apply appends_forEach; intro : appends.
#[local] Hint Extern 2 (appends (bind _ _)) =>
  apply appends_bind; [|intro] : appends.
#[local] Hint Extern 2 (appends (modify _)) =>
  apply appends_modify; intro; apply extends_same_trace; reflexivity : appends.
#[local] Hint Extern 2 (appends (try_catch _ _)) =>
  apply appends_try_catch; [|intro] : appends.

Ltac appends := unfold setConvState, setMessages; auto 30 with appends.

Lemma appends_setConvState f : appends (setConvState f).
Proof. appends. Qed.

(** [stopConversation] in closed form. *)
Lemma stopConversation_spec w :
  stopConversation w =
  Normal tt
    (with_trace (trace w ++ closes w ++ [SetConvState idle])
       (with_convState idle
          (with_sessionRef None
             (with_audioContextInRef None (with_audioContextOutRef None w))))).
Proof.
  destruct w as [ms cs [s|] [ci|] [co|] src nst cit cot st tr nh];
    cbv -[app]; rewrite <- ?app_assoc; reflexivity.
Qed.

Lemma appends_stopConversation : appends stopConversation.
Proof.
  intro w. rewrite stopConversation_spec. simpl. eexists. reflexivity.
Qed.

Lemma onerror_spec w :
  onerror w =
  Normal tt
    (with_trace
       (trace w
        ++ [ConsoleError;
            SetConvState {| isActive := isActive (convState w);
                            isConnecting := isConnecting (convState w);
                            error := Some "Connection error occurred." |}]
        ++ closes w ++ [SetConvState idle])
       (with_convState idle
          (with_sessionRef None
             (with_audioContextInRef None (with_audioContextOutRef None w))))).
Proof.
  destruct w as [ms cs [s|] [ci|] [co|] src nst cit cot st tr nh];
    cbv -[app]; rewrite <- ?app_assoc; reflexivity.
Qed.

(** ** The session controller *)

Section Controller.

Context {audioUtils : Imports}.

Lemma appends_onmessage_audio env message :
  appends (onmessage_audio env message).
Proof.
  unfold onmessage_audio, try_option, evaluate.
  apply appends_bind; [destruct (base64Audio message); appends|intro payload].
  apply appends_bind; [apply appends_get|intro w0].
  destruct payload as [payload|]; [|appends].
  destruct (audioContextOutRef w0) as [ctx|]; [|appends].
  apply appends_when.
  apply appends_bind; [appends|intros _].
  apply appends_bind; [destruct (decode payload); appends|intro data].
  apply appends_bind;
    [destruct (decodeAudioData data ctx 24000 1); appends|intro audioBuffer].
  appends.
Qed.

Lemma appends_onmessage env message : appends (onmessage env message).
Proof.
  unfold onmessage.
  apply appends_bind; [apply appends_onmessage_audio|intros _].
  unfold onmessage_transcription, onmessage_turnComplete,
    onmessage_interrupted.
  appends.
Qed.

Lemma appends_callback c : appends (callback c).
Proof.
  destruct c; simpl.
  - unfold onopen. apply appends_bind; [apply appends_setConvState|intro].
    apply appends_bind; [appends|intro w].
    destruct (audioContextInRef w), (stream w); appends.
  - apply appends_onmessage.
  - unfold onended. appends.
  - unfold onerror.
    apply appends_bind; [appends|intro].
    apply appends_bind; [apply appends_setConvState|intro].
    apply appends_stopConversation.
  - unfold onclose. apply appends_setConvState.
Qed.

Lemma extends_callbacks cs w : extends w (callbacks cs w).
Proof.
  revert w. induction cs as [|c cs IH]; intro w; simpl.
  - apply extends_refl.
  - eapply extends_trans; [apply appends_callback|apply IH].
Qed.

Lemma appends_await cs p : appends (await cs p).
Proof.
  unfold await. apply appends_bind.
  - apply appends_modify. apply extends_callbacks.
  - intro. destruct p; appends.
Qed.

(** The error that a failed start records. *)
Lemma start_failure_state a w c err :
  fails a c err ->
  convState (final (startConversation a w)) =
  {| isActive := false; isConnecting := false;
     error := Some (message_or err "Failed to start microphone.") |}.
Proof.
  intro H. unfold startConversation, try_catch, bind, await, modify.
  destruct c; simpl in H.
  - rewrite H. reflexivity.
  - destruct H as [Hm Hc]. simpl. rewrite Hm. simpl. rewrite Hc. reflexivity.
Qed.

(** C9 (amended). When [startConversation] fails, on the microphone or on
    the opening of the transport, the recorded error is the message of the
    thrown error itself if it has a non-empty one, and the fixed text
    "Failed to start microphone." otherwise, for either category. *)
Theorem start_error_is_message_or_fallback a w c err :
  fails a c err ->
  error (convState (final (startConversation a w))) =
  Some (message_or err "Failed to start microphone.")
  /\ isActive (convState (final (startConversation a w))) = false
  /\ isConnecting (convState (final (startConversation a w))) = false.
Proof.
  intro H. rewrite (start_failure_state a w c err H). auto.
Qed.

(** C6 (amended). [startConversation] has no guard of its own; the session
    button is the guard. While the state is Active the button runs the
    stop sequence and while it is Connecting the button is disabled, so a
    click in either state asks for no new session: in the first case it is
    [stopConversation], in the second it changes nothing. *)
Theorem session_button_guards_start a w :
  isActive (convState w) = true \/ isConnecting (convState w) = true ->
  connects (trace (final (click a w))) = connects (trace w)
  /\ (isActive (convState w) = true -> click a w = stopConversation w)
  /\ (isActive (convState w) = false -> click a w = Normal tt w).
Proof.
  intro H. unfold click, bind, get, sessionButton.
  destruct (isActive (convState w)) eqn:Ha; simpl.
  - split; [|split; [reflexivity|discriminate]].
    rewrite stopConversation_spec. simpl. unfold connects, closes.
    rewrite !flat_map_app.
    destruct (sessionRef w), (audioContextInRef w), (audioContextOutRef w);
      simpl; now rewrite app_nil_r.
  - destruct H as [H|H]; [discriminate|]. rewrite H. simpl.
    repeat split; auto; discriminate.
Qed.

End Controller.

(** ** Exit paths and resources *)

(** C1. In a running session the transport reports an error: [onerror]
    records "Connection error occurred." and at once runs
    [stopConversation], whose last write erases it; the session ends with
    no error in its state, as it does from any state at all. *)
Theorem onerror_erases_the_error_it_records :
  (forall w, convState (final (onerror w)) = idle)
  /\ convState Live.active =
     {| isActive := true; isConnecting := false; error := None |}
  /\ new_trace Live.active (final (onerror Live.active)) =
     [ConsoleError;
      SetConvState {| isActive := true; isConnecting := false;
                      error := Some "Connection error occurred." |};
      SessionClose 3%nat; AudioContextClose 1%nat; AudioContextClose 2%nat;
      SetConvState {| isActive := false; isConnecting := false;
                      error := None |}]
  /\ error (convState (final (onerror Live.active))) = None.
Proof.
  split; [intro w; rewrite onerror_spec; reflexivity|]. repeat split.
Qed.

(** C2, as stated, fails twice: a remote close releases nothing, and the
    stop sequence leaves the microphone stream running. *)
Lemma remote_close_and_stop_leave_resources :
  handles_released Live.active (final (onclose Live.active)) = false
  /\ sessionRef (final (onclose Live.active)) = Some 3%nat
  /\ new_trace Live.active (final (onclose Live.active)) = [SetConvState idle]
  /\ stream Live.active = Some 0%nat
  /\ all_released Live.active (final (stopConversation Live.active)) = false.
Proof. repeat split. Qed.

Lemma closes_release_handles w w' before after :
  trace w' = trace w ++ before ++ closes w ++ after ->
  sessionRef w' = None ->
  audioContextInRef w' = None ->
  audioContextOutRef w' = None ->
  handles_released w w' = true.
Proof.
  intros Ht Hs Hi Ho. unfold handles_released, ref_released.
  rewrite (new_trace_app _ _ _ Ht), Hs, Hi, Ho. unfold closes.
  destruct (sessionRef w), (audioContextInRef w), (audioContextOutRef w);
    simpl; rewrite ?existsb_app; simpl;
    rewrite ?Nat.eqb_refl; simpl; rewrite ?orb_true_r; reflexivity.
Qed.

Lemma no_TrackStop_in_closes w : existsb is_TrackStop (closes w) = false.
Proof.
  unfold closes.
  destruct (sessionRef w), (audioContextInRef w), (audioContextOutRef w);
    reflexivity.
Qed.

(** C2 (amended). The stop sequence and the handling of a transport error
    close the session handle and both audio contexts, whichever of them
    are held, and clear their references; none of the three exit paths
    stops the microphone stream. *)
Theorem stop_and_error_release_handles w :
  handles_released w (final (stopConversation w)) = true
  /\ handles_released w (final (onerror w)) = true
  /\ existsb is_TrackStop (new_trace w (final (stopConversation w))) = false
  /\ existsb is_TrackStop (new_trace w (final (onerror w))) = false
  /\ existsb is_TrackStop (new_trace w (final (onclose w))) = false.
Proof.
  rewrite stopConversation_spec, onerror_spec. simpl.
  repeat split.
  - apply (closes_release_handles w _ [] [SetConvState idle]); reflexivity.
  - eapply (closes_release_handles w _ [_; _] [SetConvState idle]);
      reflexivity.
  - erewrite new_trace_app by reflexivity.
    rewrite existsb_app, no_TrackStop_in_closes. reflexivity.
  - erewrite new_trace_app by reflexivity. simpl.
    rewrite existsb_app, no_TrackStop_in_closes. reflexivity.
  - erewrite new_trace_app by reflexivity. reflexivity.
Qed.

(** ** Starting *)

(** C6, as stated, fails: called in a running session, [startConversation]
    replaces both audio contexts and asks for a second session while the
    first one is still open. *)
Lemma start_while_active_opens_a_second_session :
  isActive (convState Live.active) = true
  /\ unclosed_sessions (trace Live.active) = [3%nat]
  /\ sessionRef (final (Live.startConversation Live.granted Live.active))
     = Some 7%nat
  /\ unclosed_sessions
       (trace (final (Live.startConversation Live.granted Live.active)))
     = [3%nat; 7%nat]
  /\ ~ @start_guarded Live.audioUtils.
Proof.
  repeat split.
  intro H. specialize (H Live.granted Live.active eq_refl).
  apply (f_equal sessionRef) in H. discriminate H.
Qed.

(** The button in a running session: a click asks for no new session. *)
Lemma session_button_guards_start_witness :
  (isActive (convState Live.active) = true
   \/ isConnecting (convState Live.active) = true)
  /\ connects (trace (final (Live.click Live.granted Live.active)))
     = connects (trace Live.active).
Proof.
  split; [left; reflexivity|].
  apply (@session_button_guards_start Live.audioUtils Live.granted Live.active).
  left. reflexivity.
Defined.

(** C9, as stated, fails: two refusals of the microphone with different
    diagnostics record two different errors, each the diagnostic itself. *)
Lemma start_error_is_the_raw_diagnostic :
  error (convState (final
    (Live.startConversation (Live.refused "Permission denied") mount)))
  = Some "Permission denied"
  /\ error (convState (final
    (Live.startConversation (Live.refused "Requested device not found") mount)))
  = Some "Requested device not found"
  /\ ~ @stable_start_errors Live.audioUtils.
Proof.
  repeat split.
  intros [text H].
  pose proof (H (Live.refused "Permission denied") mount PermissionError
                _ eq_refl) as H1.
  pose proof (H (Live.refused "Requested device not found") mount
                PermissionError _ eq_refl) as H2.
  vm_compute in H1, H2. congruence.
Qed.

(** A refused microphone, with its diagnostic. *)
Lemma start_error_is_message_or_fallback_witness :
  fails (Live.refused "Permission denied") PermissionError
    {| message := Some "Permission denied" |}
  /\ error (convState (final
       (Live.startConversation (Live.refused "Permission denied") mount)))
     = Some "Permission denied".
Proof.
  split; [reflexivity|].
  apply (@start_error_is_message_or_fallback Live.audioUtils
           (Live.refused "Permission denied") mount PermissionError
           {| message := Some "Permission denied" |}).
  reflexivity.
Defined.

(** ** Inbound messages *)

Lemma Math_max_r a b : (a <= b)%Qc -> Math_max a b = b.
Proof.
  intro H. unfold Math_max. destruct (a ?= b)%Qc eqn:E; auto.
  - now apply Qceq_alt in E.
  - apply Qcle_alt in H. contradiction.
Qed.

Lemma Math_max_l a b : (b <= a)%Qc -> Math_max a b = a.
Proof.
  intro H. unfold Math_max. destruct (a ?= b)%Qc eqn:E; auto.
  apply Qclt_alt in E. now apply Qclt_not_le in E.
Qed.

Section Messages.

Context {audioUtils : Imports}.

Lemma onmessage_unfold env m w :
  onmessage env m w =
  match onmessage_audio env m w with
  | Normal _ w1 =>
      bind (onmessage_transcription m)
        (fun _ => bind (onmessage_turnComplete env m)
                    (fun _ => onmessage_interrupted m)) w1
  | Throw err w1 => Throw err w1
  end.
Proof. reflexivity. Qed.

(** The audio part in closed form. *)
Lemma onmessage_audio_spec env m w :
  onmessage_audio env m w =
  match audioContextOutRef w with
  | Some ctx =>
      let start := Math_max (nextStartTimeRef w) (currentTime env) in
      match chunk ctx m with
      | NoAudio => Normal tt w
      | Unreadable => Throw typeError w
      | Malformed => Throw decodeFailure (with_nextStartTimeRef start w)
      | Decoded d =>
          Normal tt
            (with_sourcesRef (Set_add (nextHandle w) (sourcesRef w))
               (with_nextStartTimeRef (start + d)%Qc
                  (with_trace (trace w ++ [SourceStart (nextHandle w) start])
                     (with_nextHandle (S (nextHandle w)) w))))
      end
  | None => if readable m then Normal tt w else Throw typeError w
  end.
Proof.
  unfold onmessage_audio, chunk, readable, base64Audio, evaluate, bind, get,
    when, try_option.
  destruct (modelTurn m) as [[[[|[[[[p|]]|]] ps]|]]|]; simpl;
    try solve [now destruct (audioContextOutRef w)].
  destruct (audioContextOutRef w) as [ctx|]; [|reflexivity].
  destruct (truthy p); [|reflexivity]. simpl.
  destruct (decode p) as [data|]; [|reflexivity]. simpl.
  destruct (decodeAudioData data ctx 24000 1); reflexivity.
Qed.


Lemma onmessage_audio_frame env m w :
  let w1 := final (onmessage_audio env m w) in
  messages w1 = messages w
  /\ convState w1 = convState w
  /\ currentInputTranscriptRef w1 = currentInputTranscriptRef w
  /\ currentOutputTranscriptRef w1 = currentOutputTranscriptRef w.
Proof.
  rewrite onmessage_audio_spec.
  destruct (audioContextOutRef w) as [ctx|];
    [|destruct (readable m); now auto].
  destruct (chunk ctx m); simpl; auto.
Qed.


Lemma onmessage_transcription_spec m w :
  onmessage_transcription m w =
  Normal tt
    (with_currentOutputTranscriptRef
       (pending (outputTranscription m) (currentOutputTranscriptRef w))
       (with_currentInputTranscriptRef
          (pending (inputTranscription m) (currentInputTranscriptRef w)) w)).
Proof.
  destruct w. unfold onmessage_transcription, pending.
  destruct (inputTranscription m), (outputTranscription m); reflexivity.
Qed.

Lemma onmessage_turnComplete_spec env m w :
  onmessage_turnComplete env m w =
  Normal tt
    (if turnComplete m
     then with_currentOutputTranscriptRef ""
            (with_currentInputTranscriptRef ""
               (with_messages
                  (messages w
                   ++ flushed env (currentInputTranscriptRef w)
                        (currentOutputTranscriptRef w)) w))
     else w).
Proof.
  destruct w as [ms cs s ci co src nst cit cot st tr nh].
  unfold onmessage_turnComplete, flushed.
  destruct (turnComplete m); [|reflexivity]. cbn.
  destruct (truthy cit), (truthy cot);
    cbn; rewrite <- ?app_assoc, ?app_nil_r; reflexivity.
Qed.

Lemma forEach_stop_spec l w :
  forEach l (fun s => emit (SourceStop s)) w =
  Normal tt (with_trace (trace w ++ map SourceStop l) w).
Proof.
  revert w. induction l as [|s l IH]; intro w.
  - destruct w. simpl. now rewrite app_nil_r.
  - simpl. unfold bind at 1. unfold emit at 1, modify. rewrite IH.
    destruct w. simpl. now rewrite <- app_assoc.
Qed.

Lemma onmessage_interrupted_spec m w :
  onmessage_interrupted m w =
  Normal tt
    (if interrupted m
     then with_nextStartTimeRef 0%Qc
            (with_sourcesRef []
               (with_trace (trace w ++ map SourceStop (sourcesRef w)) w))
     else w).
Proof.
  unfold onmessage_interrupted. destruct (interrupted m); [|reflexivity].
  unfold when, bind, get. rewrite forEach_stop_spec. reflexivity.
Qed.


(** C5 (amended). A message with the turn-complete flag whose audio part
    returns (line 97 can read it and its chunk, if it is played, decodes),
    once its own fragments are added to the two buffers, appends one
    message for each buffer that is not empty, the user's before the
    assistant's, and none for an empty one; it leaves both buffers empty,
    and a turn-complete message that finds them empty and brings no
    fragment appends nothing. *)
Theorem turn_complete_flushes_both_buffers env m w :
  turnComplete m = true ->
  threw (onmessage_audio env m w) = false ->
  let userText := pending (inputTranscription m) (currentInputTranscriptRef w) in
  let aiText := pending (outputTranscription m) (currentOutputTranscriptRef w) in
  let w' := final (onmessage env m w) in
  (exists new,
     messages w' = messages w ++ new
     /\ said new =
        (if truthy userText then [(user, userText)] else [])
        ++ (if truthy aiText then [(ai, aiText)] else []))
  /\ currentInputTranscriptRef w' = ""
  /\ currentOutputTranscriptRef w' = ""
  /\ forall env2 m2,
       turnComplete m2 = true ->
       inputTranscription m2 = None ->
       outputTranscription m2 = None ->
       messages (final (onmessage env2 m2 w')) = messages w'.
Proof.
  intros Hturn Hok userText aiText w'.
  assert (Hempty : forall env2 m2 w2,
             currentInputTranscriptRef w2 = "" ->
             currentOutputTranscriptRef w2 = "" ->
             inputTranscription m2 = None ->
             outputTranscription m2 = None ->
             messages (final (onmessage env2 m2 w2)) = messages w2).
  { intros env2 m2 w2 Hi Ho Hin Hout. rewrite onmessage_unfold.
    destruct (onmessage_audio_frame env2 m2 w2) as (Hm & _ & Hci & Hco).
    destruct (onmessage_audio env2 m2 w2) as [[] w3|err w3]; simpl in *;
      [|assumption].
    unfold bind. rewrite onmessage_transcription_spec, Hin, Hout. simpl.
    rewrite onmessage_turnComplete_spec, onmessage_interrupted_spec. simpl.
    rewrite Hci, Hco, Hi, Ho.
    destruct (turnComplete m2), (interrupted m2); simpl;
      rewrite ?app_nil_r; assumption. }
  destruct (onmessage_audio_frame env m w) as (Hm & _ & Hci & Hco).
  assert (Hw' : w' = final (onmessage env m w)) by reflexivity.
  rewrite onmessage_unfold in Hw'.
  destruct (onmessage_audio env m w) as [[] w1|err w1]; simpl in *;
    [|discriminate].
  unfold bind in Hw'.
  rewrite onmessage_transcription_spec, onmessage_turnComplete_spec,
    onmessage_interrupted_spec, Hturn in Hw'.
  simpl in Hw'. rewrite Hm, Hci, Hco in Hw'. fold userText aiText in Hw'.
  assert (Hflush : said (flushed env userText aiText) =
            (if truthy userText then [(user, userText)] else [])
            ++ (if truthy aiText then [(ai, aiText)] else [])).
  { unfold flushed, said. destruct (truthy userText), (truthy aiText);
      reflexivity. }
  assert (Hfacts : messages w' = messages w ++ flushed env userText aiText
                   /\ currentInputTranscriptRef w' = ""
                   /\ currentOutputTranscriptRef w' = "").
  { rewrite Hw'. destruct (interrupted m); simpl; auto. }
  destruct Hfacts as (Hmsg & Hi & Ho).
  split; [exists (flushed env userText aiText); auto|].
  split; [assumption|]. split; [assumption|].
  intros env2 m2 _ Hin Hout. apply Hempty; assumption.
Qed.

Lemma onmessage_after_audio env m w :
  onmessage env m w =
  match onmessage_audio env m w with
  | Normal _ w1 => Normal tt (after_audio env m w1)
  | Throw err w1 => Throw err w1
  end.
Proof.
  rewrite onmessage_unfold. destruct (onmessage_audio env m w) as [[] w1|err w1]; [|reflexivity].
  unfold after_audio, bind.
  rewrite onmessage_transcription_spec, onmessage_turnComplete_spec,
    onmessage_interrupted_spec. reflexivity.
Qed.

Lemma after_audio_spec env m w :
  after_audio env m w =
  let w1 :=
    with_currentOutputTranscriptRef
      (pending (outputTranscription m) (currentOutputTranscriptRef w))
      (with_currentInputTranscriptRef
         (pending (inputTranscription m) (currentInputTranscriptRef w)) w) in
  let w2 :=
    if turnComplete m
    then with_currentOutputTranscriptRef ""
           (with_currentInputTranscriptRef ""
              (with_messages
                 (messages w1
                  ++ flushed env (currentInputTranscriptRef w1)
                       (currentOutputTranscriptRef w1)) w1))
    else w1 in
  if interrupted m
  then with_nextStartTimeRef 0%Qc
         (with_sourcesRef []
            (with_trace (trace w2 ++ map SourceStop (sourcesRef w2)) w2))
  else w2.
Proof.
  unfold after_audio, bind.
  rewrite onmessage_transcription_spec, onmessage_turnComplete_spec,
    onmessage_interrupted_spec. reflexivity.
Qed.

Lemma after_audio_trace env m w :
  trace (after_audio env m w) =
  trace w ++ (if interrupted m then map SourceStop (sourcesRef w) else []).
Proof.
  rewrite after_audio_spec.
  destruct (turnComplete m), (interrupted m); simpl; now rewrite ?app_nil_r.
Qed.

Lemma after_audio_playback env m w :
  sourcesRef (after_audio env m w) = (if interrupted m then [] else sourcesRef w)
  /\ nextStartTimeRef (after_audio env m w) =
     (if interrupted m then 0%Qc else nextStartTimeRef w)
  /\ audioContextOutRef (after_audio env m w) = audioContextOutRef w
  /\ nextHandle (after_audio env m w) = nextHandle w.
Proof.
  rewrite after_audio_spec.
  destruct (turnComplete m), (interrupted m); simpl; auto.
Qed.

Lemma after_audio_cursor env m c w :
  after_audio env m (with_nextStartTimeRef c w) =
  if interrupted m then after_audio env m w
  else with_nextStartTimeRef c (after_audio env m w).
Proof.
  rewrite !after_audio_spec.
  destruct (turnComplete m), (interrupted m); reflexivity.
Qed.

Lemma starts_stops l : starts (map SourceStop l) = [].
Proof. induction l; simpl; auto. Qed.

Lemma stops_stops l : stops (map SourceStop l) = l.
Proof. induction l; simpl; congruence. Qed.


(** One message with a chunk that decodes. *)
Lemma onmessage_enqueues env m w ctx d :
  audioContextOutRef w = Some ctx ->
  chunk ctx m = Decoded d ->
  let start := Math_max (nextStartTimeRef w) (currentTime env) in
  let w' := final (onmessage env m w) in
  trace w' =
    trace w ++ SourceStart (nextHandle w) start
            :: (if interrupted m
                then map SourceStop (Set_add (nextHandle w) (sourcesRef w))
                else [])
  /\ nextStartTimeRef w' = (if interrupted m then 0 else start + d)%Qc
  /\ audioContextOutRef w' = Some ctx.
Proof.
  intros Hctx Hchunk start w'. subst w'.
  rewrite onmessage_after_audio, onmessage_audio_spec, Hctx, Hchunk.
  cbv zeta. simpl final. rewrite after_audio_trace.
  destruct (after_audio_playback env m
    (with_sourcesRef (Set_add (nextHandle w) (sourcesRef w))
       (with_nextStartTimeRef (start + d)%Qc
          (with_trace (trace w ++ [SourceStart (nextHandle w) start])
             (with_nextHandle (S (nextHandle w)) w))))) as (_ & Hc & Ho & _).
  fold start. rewrite Hc, Ho. simpl. rewrite <- app_assoc. auto.
Qed.

Lemma new_trace_step w w1 w2 :
  extends w w1 -> extends w1 w2 ->
  new_trace w w2 = new_trace w w1 ++ new_trace w1 w2.
Proof.
  intros [a Ha] [b Hb].
  rewrite (new_trace_app w w1 a Ha), (new_trace_app w1 w2 b Hb).
  apply new_trace_app. now rewrite Hb, Ha, app_assoc.
Qed.

Lemma starts_app l1 l2 : starts (l1 ++ l2) = starts l1 ++ starts l2.
Proof. apply flat_map_app. Qed.

Lemma stops_app l1 l2 : stops (l1 ++ l2) = stops l1 ++ stops l2.
Proof. apply flat_map_app. Qed.

(** C4. A message with the interrupted flag stops every source that is in
    the active set when the flag is handled, empties the set and puts the
    cursor back to 0; the next chunk that decodes is then scheduled at the
    reading of the output clock, which is never negative. *)
Theorem interrupt_clears_playback env m w w1 :
  interrupted m = true ->
  onmessage_audio env m w = Normal tt w1 ->
  let w' := final (onmessage env m w) in
  stops (new_trace w w') = sourcesRef w1
  /\ sourcesRef w' = []
  /\ nextStartTimeRef w' = 0%Qc
  /\ forall env2 m2 ctx d,
       audioContextOutRef w' = Some ctx ->
       chunk ctx m2 = Decoded d ->
       (0 <= currentTime env2)%Qc ->
       starts (new_trace w' (final (onmessage env2 m2 w'))) = [currentTime env2].
Proof.
  intros Hint Haudio w'.
  assert (Hw' : w' = after_audio env m w1).
  { subst w'. rewrite onmessage_after_audio, Haudio. reflexivity. }
  destruct (after_audio_playback env m w1) as (Hs & Hc & _).
  rewrite Hint in Hs, Hc. rewrite <- Hw' in Hs, Hc.
  assert (Hext : extends w w1).
  { pose proof (appends_onmessage_audio env m w) as H. now rewrite Haudio in H. }
  assert (Hstops : stops (new_trace w w1) = []).
  { rewrite onmessage_audio_spec in Haudio.
    destruct (audioContextOutRef w) as [ctx|].
    - destruct (chunk ctx m); inversion Haudio; subst.
      + unfold new_trace. now rewrite skipn_all.
      + erewrite new_trace_app by reflexivity. reflexivity.
    - destruct (readable m); inversion Haudio; subst.
      unfold new_trace. now rewrite skipn_all. }
  repeat split; try assumption.
  - rewrite (new_trace_step w w1 w'); [|assumption|].
    + rewrite stops_app, Hstops. simpl.
      rewrite (new_trace_app w1 w' (map SourceStop (sourcesRef w1))).
      * apply stops_stops.
      * rewrite Hw', after_audio_trace, Hint. reflexivity.
    + rewrite Hw'. eexists. apply after_audio_trace.
  - intros env2 m2 ctx d Hctx Hchunk Hnow.
    destruct (onmessage_enqueues env2 m2 w' ctx d Hctx Hchunk) as (Ht & _).
    rewrite (new_trace_app _ _ _ Ht), Hc. simpl.
    rewrite Math_max_r by assumption.
    destruct (interrupted m2); [rewrite starts_stops|]; reflexivity.
Qed.


Lemma callbacks_cons c cs w :
  callbacks (c :: cs) w = callbacks cs (final (callback c w)).
Proof. reflexivity. Qed.

Lemma duration_nonneg b : (0 <= AudioUtils.duration b)%Qc.
Proof.
  unfold AudioUtils.duration, Qcle. cbn [this Q2Qc].
  rewrite !Qred_correct. unfold Qle. simpl. lia.
Qed.

Lemma chunk_nonneg ctx m d : chunk ctx m = Decoded d -> (0 <= d)%Qc.
Proof.
  unfold chunk.
  destruct (base64Audio m) as [[p|]|err]; [|discriminate|discriminate].
  destruct (truthy p); [|discriminate].
  destruct (decode p) as [data|]; [|discriminate].
  destruct (decodeAudioData data ctx 24000 1) as [b|]; [|discriminate].
  intros [= <-]. apply duration_nonneg.
Qed.

Lemma Qcle_plus_nonneg a d : (0 <= d)%Qc -> (a <= a + d)%Qc.
Proof.
  intro H. rewrite <- (Qcplus_0_r a) at 1.
  apply Qcplus_le_compat; [apply Qcle_refl|exact H].
Qed.

(** Chunks that each arrive before the cursor is reached: each one starts
    at the cursor the one before it left. *)
Lemma run_in_time ctx ms ds :
  Forall2 (fun em d => chunk ctx (snd em) = Decoded d
                       /\ interrupted (snd em) = false) ms ds ->
  forall w,
    audioContextOutRef w = Some ctx ->
    in_time (nextStartTimeRef w) ms ds ->
    let w' := callbacks (server_messages ms) w in
    starts (new_trace w w') = back_to_back (nextStartTimeRef w) ds
    /\ nextStartTimeRef w' = fold_left Qcplus ds (nextStartTimeRef w).
Proof.
  induction 1 as [|[env m] d ms ds [Hchunk Hint] _ IH]; intros w Hctx Hin.
  - simpl. split; [|reflexivity].
    unfold new_trace. now rewrite skipn_all.
  - simpl in Hchunk, Hint. destruct Hin as [Hnow Hin]. simpl in Hnow.
    simpl server_messages. rewrite callbacks_cons. simpl callback.
    destruct (onmessage_enqueues env m w ctx d Hctx Hchunk) as (Ht & Hc & Ho).
    rewrite Hint, (Math_max_l _ _ Hnow) in Ht, Hc.
    set (w1 := final (onmessage env m w)) in *.
    rewrite <- Hc in Hin.
    destruct (IH w1 Ho Hin) as (Hs & Hf).
    cbv zeta. split.
    + rewrite (new_trace_step w w1); [|eexists; exact Ht|apply extends_callbacks].
      rewrite starts_app, Hs, (new_trace_app _ _ _ Ht), Hc. reflexivity.
    + rewrite Hf, Hc. reflexivity.
Qed.

(** In a back-to-back timeline each segment starts where the one before
    it ends. *)
Lemma back_to_back_next ds : forall t i s d s',
  nth_error (back_to_back t ds) i = Some s ->
  nth_error ds i = Some d ->
  nth_error (back_to_back t ds) (S i) = Some s' ->
  s' = (s + d)%Qc.
Proof.
  induction ds as [|d0 ds IH]; intros t i s d s' Hs Hd Hs'.
  - destruct i; discriminate.
  - destruct i as [|i]; simpl in Hs, Hd.
    + injection Hs as <-. injection Hd as <-.
      destruct ds; simpl in Hs'; [discriminate|]. now injection Hs' as <-.
    + exact (IH _ i s d s' Hs Hd Hs').
Qed.

(** C3 (amended). Chunks that decode, with no interruption among them:
    if the cursor is not ahead of the clock when the first one arrives,
    and each later one arrives no later than the end of the segment
    before it (its clock reading is not past the cursor), then the first
    segment starts at the clock reading of its arrival and every other
    one at the cursor the one before it left, which is the start of that
    one plus its duration: the durations are added one at a time, in the
    order of arrival, as line 109 adds them. No duration is negative, so
    each segment starts exactly where the one before it ends and none
    starts earlier than the one before it. *)
Theorem chunks_in_time_play_back_to_back w ctx env0 m0 d0 ms ds :
  audioContextOutRef w = Some ctx ->
  (nextStartTimeRef w <= currentTime env0)%Qc ->
  Forall2 (fun em d => chunk ctx (snd em) = Decoded d
                       /\ interrupted (snd em) = false)
    ((env0, m0) :: ms) (d0 :: ds) ->
  in_time (currentTime env0 + d0)%Qc ms ds ->
  let w' := callbacks (server_messages ((env0, m0) :: ms)) w in
  let scheduled := starts (new_trace w w') in
  scheduled = back_to_back (currentTime env0) (d0 :: ds)
  /\ nextStartTimeRef w' = fold_left Qcplus (d0 :: ds) (currentTime env0)
  /\ (forall i s d s',
        nth_error scheduled i = Some s ->
        nth_error (d0 :: ds) i = Some d ->
        nth_error scheduled (S i) = Some s' ->
        s' = (s + d)%Qc /\ (s <= s')%Qc)
  /\ Forall (fun d => (0 <= d)%Qc) (d0 :: ds).
Proof.
  intros Hctx Hfirst Hall Hin.
  assert (Hpos : Forall (fun d => (0 <= d)%Qc) (d0 :: ds)).
  { clear Hin Hfirst. induction Hall as [|em d ? ? [Hchunk _] _ IH];
      constructor; [|exact IH].
    eapply chunk_nonneg. exact Hchunk. }
  inversion Hall as [|? ? ? ? [Hchunk Hint] Hrest]; subst.
  simpl in Hchunk, Hint. simpl server_messages. rewrite callbacks_cons.
  simpl callback.
  destruct (onmessage_enqueues env0 m0 w ctx d0 Hctx Hchunk) as (Ht & Hc & Ho).
  rewrite Hint, (Math_max_r _ _ Hfirst) in Ht, Hc.
  set (w1 := final (onmessage env0 m0 w)) in *.
  rewrite <- Hc in Hin.
  destruct (run_in_time ctx ms ds Hrest w1 Ho Hin) as (Hs & Hf).
  assert (Hstarts : starts (new_trace w (callbacks (server_messages ms) w1))
                    = back_to_back (currentTime env0) (d0 :: ds)).
  { rewrite (new_trace_step w w1); [|eexists; exact Ht|apply extends_callbacks].
    rewrite starts_app, Hs, (new_trace_app _ _ _ Ht), Hc. reflexivity. }
  cbv zeta. rewrite Hstarts.
  split; [reflexivity|]. split; [rewrite Hf, Hc; reflexivity|].
  split; [|exact Hpos].
  intros i s d s' Hi Hd Hi'.
  pose proof (back_to_back_next _ _ _ _ _ _ Hi Hd Hi') as ->.
  split; [reflexivity|]. apply Qcle_plus_nonneg.
  rewrite Forall_forall in Hpos. apply Hpos.
  eapply nth_error_In. exact Hd.
Qed.


Lemma same_but_cursor_eq w1 w2 :
  same_but_cursor w1 w2 -> w1 = with_nextStartTimeRef (nextStartTimeRef w1) w2.
Proof.
  destruct w1, w2. unfold same_but_cursor. simpl. intro H.
  injection H as -> -> -> -> -> -> -> -> -> -> ->. reflexivity.
Qed.

Lemma same_from_refl t w : same_from t w w.
Proof. split; [reflexivity|auto]. Qed.

Lemma same_but_cursor_trace w1 w2 :
  same_but_cursor w1 w2 -> trace w1 = trace w2.
Proof. intro H. apply (f_equal trace) in H. exact H. Qed.

(** The callbacks that neither read nor write the cursor. *)
Lemma onopen_cursor c w :
  final (onopen (with_nextStartTimeRef c w))
  = with_nextStartTimeRef c (final (onopen w)).
Proof.
  unfold onopen, bind, setConvState, get, modify, emit, bind. simpl.
  destruct (audioContextInRef w), (stream w); reflexivity.
Qed.

Lemma onerror_cursor c w :
  final (onerror (with_nextStartTimeRef c w))
  = with_nextStartTimeRef c (final (onerror w)).
Proof. rewrite !onerror_spec. reflexivity. Qed.

Lemma callback_same_from t c w1 w2 :
  same_from t w1 w2 -> not_before t c ->
  same_from t (final (callback c w1)) (final (callback c w2)).
Proof.
  intros [Hsame Hmax] Hc.
  rewrite (same_but_cursor_eq _ _ Hsame) in *.
  set (c1 := nextStartTimeRef w1) in *. clearbody c1. clear Hsame w1.
  simpl in Hmax.
  destruct c as [|env m|source| |]; simpl callback.
  - rewrite onopen_cursor. split; [reflexivity|]. simpl.
    intros t' Ht'. rewrite (Hmax t' Ht').
    f_equal. unfold onopen, bind, setConvState, get, modify, emit, bind. simpl.
    destruct (audioContextInRef w2), (stream w2); reflexivity.
  - simpl in Hc. rewrite !onmessage_after_audio, !onmessage_audio_spec.
    simpl audioContextOutRef. simpl nextStartTimeRef at 1 2.
    destruct (audioContextOutRef w2) as [ctx|].
    + rewrite (Hmax _ Hc). cbv zeta.
      destruct (chunk ctx m); simpl final.
      * rewrite after_audio_cursor. destruct (interrupted m) eqn:Hi.
        -- apply same_from_refl.
        -- split; [reflexivity|]. intros t' Ht'. simpl.
           destruct (after_audio_playback env m w2) as (_ & Hcur & _).
           rewrite Hcur, Hi. auto.
      * split; [reflexivity|]. exact Hmax.
      * apply same_from_refl.
      * apply same_from_refl.
    + destruct (readable m); simpl final; [|split; [reflexivity|exact Hmax]].
      rewrite after_audio_cursor. destruct (interrupted m) eqn:Hi.
      * apply same_from_refl.
      * split; [reflexivity|]. intros t' Ht'. simpl.
        destruct (after_audio_playback env m w2) as (_ & Hcur & _).
        rewrite Hcur, Hi. auto.
  - split; [reflexivity|]. exact Hmax.
  - rewrite onerror_cursor. split; [reflexivity|]. simpl.
    rewrite onerror_spec. exact Hmax.
  - split; [reflexivity|]. exact Hmax.
Qed.

Lemma callbacks_same_from t cs :
  Forall (not_before t) cs ->
  forall w1 w2, same_from t w1 w2 ->
    same_from t (callbacks cs w1) (callbacks cs w2).
Proof.
  induction 1 as [|c cs Hc _ IH]; intros w1 w2 H; [exact H|].
  rewrite !callbacks_cons. apply IH. now apply callback_same_from.
Qed.

Lemma Math_max_absorb c t t' :
  (t <= t')%Qc -> Math_max (Math_max c t) t' = Math_max c t'.
Proof.
  intro H. destruct (Qclt_le_dec c t) as [Hlt|Hle].
  - rewrite (Math_max_r c t) by now apply Qclt_le_weak.
    rewrite (Math_max_r t t' H).
    symmetry. apply Math_max_r.
    eapply Qcle_trans; [apply Qclt_le_weak; exact Hlt|exact H].
  - now rewrite (Math_max_l c t Hle).
Qed.

(** C8 (amended). A chunk that fails to decode schedules nothing: the
    handler is left by the exception, so the rest of that message (its
    transcript fragments, its turn-complete and interrupted flags) is not
    handled either, and nothing changes but the cursor, which is raised to
    the clock reading if it was behind. Whatever arrives afterwards, with
    a clock that does not run backwards, is handled and scheduled exactly
    as if the failed message had never arrived. *)
Theorem decode_failure_drops_the_message env m w ctx :
  audioContextOutRef w = Some ctx ->
  chunk ctx m = Malformed ->
  let w' := final (onmessage env m w) in
  threw (onmessage env m w) = true
  /\ w' = with_nextStartTimeRef
            (Math_max (nextStartTimeRef w) (currentTime env)) w
  /\ forall later,
       Forall (not_before (currentTime env)) later ->
       new_trace w' (callbacks later w') = new_trace w (callbacks later w)
       /\ same_but_cursor (callbacks later w') (callbacks later w).
Proof.
  intros Hctx Hchunk w'. subst w'.
  rewrite onmessage_after_audio, onmessage_audio_spec, Hctx, Hchunk.
  cbv zeta. simpl. split; [reflexivity|]. split; [reflexivity|].
  intros later Hlater.
  set (w' := with_nextStartTimeRef _ w).
  assert (H : same_from (currentTime env) w' w).
  { split; [reflexivity|]. intros t' Ht'. subst w'. simpl.
    now apply Math_max_absorb. }
  destruct (callbacks_same_from _ _ Hlater _ _ H) as [Hsame _].
  split; [|exact Hsame].
  unfold new_trace. rewrite (same_but_cursor_trace _ _ Hsame). reflexivity.
Qed.

End Messages.

(** ** The properties at work in a live session *)

(** The turn "Hello " + "world" / "Hi!" of section 8 of the spec. *)
Lemma turn_complete_flushes_both_buffers_witness :
  turnComplete Live.turn_end = true
  /\ threw (Live.onmessage (Live.at_time 2) Live.turn_end
              (Live.callbacks Live.fragments Live.active)) = false
  /\ said (messages (final (Live.onmessage (Live.at_time 2) Live.turn_end
                              (Live.callbacks Live.fragments Live.active))))
     = [(user, "Hello world"); (ai, "Hi!")].
Proof.
  split; [reflexivity|]. split; [reflexivity|].
  destruct (@turn_complete_flushes_both_buffers Live.audioUtils
              (Live.at_time 2) Live.turn_end
              (Live.callbacks Live.fragments Live.active)
              eq_refl eq_refl) as ((new & Hm & Hs) & _).
  unfold Live.onmessage. rewrite Hm. unfold said in *.
  rewrite map_app, Hs. reflexivity.
Defined.

(** C5, as stated, fails: not every turn-complete message is flushed. One
    whose model turn has no parts, and one whose chunk fails to decode,
    leave the handler by an exception before line 113: with the example
    turn in the buffers, nothing is appended to the log, both buffers keep
    their text and the fragment of the message itself is lost. *)
Lemma turn_end_is_lost_with_its_audio :
  turnComplete Live.bare_turn_end = true
  /\ turnComplete Live.garbled_turn_end = true
  /\ currentInputTranscriptRef (Live.callbacks Live.fragments Live.active)
     = "Hello world"
  /\ currentOutputTranscriptRef (Live.callbacks Live.fragments Live.active)
     = "Hi!"
  /\ messages (final (Live.onmessage (Live.at_time 2) Live.bare_turn_end
                        (Live.callbacks Live.fragments Live.active))) = []
  /\ currentInputTranscriptRef
       (final (Live.onmessage (Live.at_time 2) Live.bare_turn_end
                 (Live.callbacks Live.fragments Live.active))) = "Hello world"
  /\ currentOutputTranscriptRef
       (final (Live.onmessage (Live.at_time 2) Live.bare_turn_end
                 (Live.callbacks Live.fragments Live.active))) = "Hi!"
  /\ messages (final (Live.onmessage (Live.at_time 2) Live.garbled_turn_end
                        (Live.callbacks Live.fragments Live.active))) = []
  /\ currentInputTranscriptRef
       (final (Live.onmessage (Live.at_time 2) Live.garbled_turn_end
                 (Live.callbacks Live.fragments Live.active))) = "Hello world"
  /\ currentOutputTranscriptRef
       (final (Live.onmessage (Live.at_time 2) Live.garbled_turn_end
                 (Live.callbacks Live.fragments Live.active))) = "Hi!".
Proof. repeat split. Qed.

(** Three chunks of silence that arrive in time. *)
Lemma chunks_in_time_play_back_to_back_witness :
  audioContextOutRef Live.active = Some 2%nat
  /\ (nextStartTimeRef Live.active <= currentTime (Live.at_time 1))%Qc
  /\ in_time (currentTime (Live.at_time 1) + Live.silence_duration)%Qc
       (tl Live.three_chunks) [Live.silence_duration; Live.silence_duration]
  /\ starts (new_trace Live.active Live.playing)
     = back_to_back (currentTime (Live.at_time 1))
         [Live.silence_duration; Live.silence_duration; Live.silence_duration].
Proof.
  assert (Hin : in_time (currentTime (Live.at_time 1) + Live.silence_duration)%Qc
                  (tl Live.three_chunks)
                  [Live.silence_duration; Live.silence_duration]).
  { simpl. repeat split; vm_compute; discriminate. }
  split; [reflexivity|]. split; [vm_compute; discriminate|].
  split; [exact Hin|].
  refine (proj1 (@chunks_in_time_play_back_to_back Live.audioUtils
            Live.active 2%nat (Live.at_time 1) (Live.audio Live.silence)
            Live.silence_duration (tl Live.three_chunks)
            [Live.silence_duration; Live.silence_duration] eq_refl _ _ Hin)).
  - vm_compute. discriminate.
  - repeat constructor.
Defined.

(** C3, as stated, fails: a chunk that arrives after the segment before it
    has ended starts at the clock and leaves a gap; and after a restart
    the cursor of the earlier session is still ahead of the new clock, so
    the first chunk does not start at the clock reading of its arrival. *)
Lemma late_chunk_leaves_a_gap :
  map this (starts (new_trace Live.active
              (Live.callbacks (server_messages Live.late_chunks) Live.active)))
  = [1; 5]
  /\ map this (gapless (currentTime (Live.at_time 1))
                 [Live.silence_duration; Live.silence_duration])
     = [1; 101 # 100]
  /\ map this (starts (new_trace Live.restarted
                 (Live.callbacks
                    [ServerMessage (Live.at_time (1 # 2))
                       (Live.audio Live.silence)] Live.restarted)))
     = [101 # 100].
Proof. repeat split. Qed.

(** A barge-in while three segments are scheduled, then a new chunk. *)
Lemma interrupt_clears_playback_witness :
  interrupted Live.barge_in = true
  /\ Live.onmessage_audio (Live.at_time 1) Live.barge_in Live.playing
     = Normal tt Live.playing
  /\ stops (new_trace Live.playing
              (final (Live.onmessage (Live.at_time 1) Live.barge_in
                        Live.playing)))
     = [4%nat; 5%nat; 6%nat]
  /\ starts (new_trace
       (final (Live.onmessage (Live.at_time 1) Live.barge_in Live.playing))
       (final (Live.onmessage (Live.at_time 2) (Live.audio Live.silence)
          (final (Live.onmessage (Live.at_time 1) Live.barge_in
                    Live.playing)))))
     = [currentTime (Live.at_time 2)].
Proof.
  split; [reflexivity|]. split; [reflexivity|].
  destruct (@interrupt_clears_playback Live.audioUtils (Live.at_time 1)
              Live.barge_in Live.playing Live.playing eq_refl eq_refl)
    as (Hstops & _ & _ & Hnext).
  split; [exact Hstops|].
  apply (Hnext (Live.at_time 2) (Live.audio Live.silence) 2%nat
           Live.silence_duration); [reflexivity|reflexivity|].
  vm_compute. discriminate.
Defined.

(** C8, as stated, fails: had the garbled chunk been well-formed, the
    chunk after it would start where that one ends; as it is dropped, the
    chunk after it starts in its place. The failure also takes the rest
    of its message with it: the turn it should end is not flushed. *)
Lemma dropped_chunk_moves_the_next_one :
  map this (starts (trace (Live.callbacks
     [ServerMessage (Live.at_time 0) (Live.audio Live.garbled);
      ServerMessage (Live.at_time 0) (Live.audio Live.silence)] Live.active)))
  = [0]
  /\ map this (starts (trace (Live.callbacks
       [ServerMessage (Live.at_time 0) (Live.audio Live.silence);
        ServerMessage (Live.at_time 0) (Live.audio Live.silence)] Live.active)))
     = [0; 1 # 100]
  /\ messages (final (Live.onmessage (Live.at_time 0) Live.garbled_turn_end
                        Live.active)) = []
  /\ currentInputTranscriptRef
       (final (Live.onmessage (Live.at_time 0) Live.garbled_turn_end
                 Live.active)) = "".
Proof. repeat split. Qed.

(** A garbled chunk while three segments are scheduled, then a good one. *)
Lemma decode_failure_drops_the_message_witness :
  audioContextOutRef Live.playing = Some 2%nat
  /\ Live.chunk 2%nat Live.garbled_turn_end = Malformed
  /\ threw (Live.onmessage (Live.at_time 1) Live.garbled_turn_end
              Live.playing) = true
  /\ new_trace
       (final (Live.onmessage (Live.at_time 1) Live.garbled_turn_end
                 Live.playing))
       (Live.callbacks
          [ServerMessage (Live.at_time (3 # 2)) (Live.audio Live.silence)]
          (final (Live.onmessage (Live.at_time 1) Live.garbled_turn_end
                    Live.playing)))
     = new_trace Live.playing
         (Live.callbacks
            [ServerMessage (Live.at_time (3 # 2)) (Live.audio Live.silence)]
            Live.playing).
Proof.
  split; [reflexivity|]. split; [reflexivity|].
  destruct (@decode_failure_drops_the_message Live.audioUtils
              (Live.at_time 1) Live.garbled_turn_end Live.playing 2%nat
              eq_refl eq_refl) as (Hthrew & _ & Hlater).
  split; [exact Hthrew|].
  apply Hlater. constructor; [|constructor]. vm_compute. discriminate.
Defined.

(** ** The PCM codec *)

Section Codec.

Import AudioUtils.

Local Open Scope Z_scope.

Lemma all_sextets_ok : forallb sextet_ok (map Z.of_nat (seq 0 64)) = true.
Proof. vm_compute. reflexivity. Qed.

Lemma sextet_roundtrip n :
  0 <= n < 64 ->
  sextet_of_char (char_of_sextet n) = Some n
  /\ Ascii.eqb (char_of_sextet n) pad = false.
Proof.
  intro Hn. pose proof all_sextets_ok as H.
  rewrite forallb_forall in H. specialize (H n).
  assert (Hin : In n (map Z.of_nat (seq 0 64))).
  { apply in_map_iff. exists (Z.to_nat n). split; [lia|].
    apply in_seq. lia. }
  apply H in Hin. unfold sextet_ok in Hin.
  apply andb_true_iff in Hin. destruct Hin as [H1 H2].
  destruct (sextet_of_char (char_of_sextet n)) as [m|]; [|discriminate].
  apply Z.eqb_eq in H1. subst m. split; [reflexivity|].
  now apply negb_true_iff in H2.
Qed.

Lemma list_ind3 {A} (P : list A -> Prop) :
  P [] -> (forall a, P [a]) -> (forall a b, P [a; b]) ->
  (forall a b c l, P l -> P (a :: b :: c :: l)) ->
  forall l, P l.
Proof.
  intros H0 H1 H2 H3.
  fix IH 1. intros [|a [|b [|c l]]];
    [exact H0|exact (H1 a)|exact (H2 a b)|exact (H3 a b c l (IH l))].
Qed.

Ltac sextet n :=
  let H := fresh in
  let E := fresh in
  let P := fresh in
  assert (H : 0 <= n < 64)
    by (Z.to_euclidean_division_equations; lia);
  destruct (sextet_roundtrip n H) as [E P];
  rewrite ?E, ?P; clear E P H.

Lemma decode_encode bytes :
  Forall byte bytes -> decode (encode bytes) = Some bytes.
Proof.
  induction bytes as [|a|a b|a b c rest IH] using list_ind3; intro Hb.
  - reflexivity.
  - inversion Hb as [|? ? Ha _]; subst. unfold byte in Ha.
    cbn [encode decode].
    sextet (a / 4). sextet (a mod 4 * 16).
    replace (Ascii.eqb pad pad) with true by reflexivity.
    cbn [andb].
    replace (a mod 4 * 16 mod 16 =? 0) with true
      by (symmetry; apply Z.eqb_eq; Z.to_euclidean_division_equations; lia).
    do 2 f_equal. Z.to_euclidean_division_equations; lia.
  - inversion Hb as [|? ? Ha Hb']; subst.
    inversion Hb' as [|? ? Hb0 _]; subst. unfold byte in *.
    cbn [encode decode].
    sextet (a / 4). sextet (a mod 4 * 16 + b / 16). sextet (b mod 16 * 4).
    replace (Ascii.eqb pad pad) with true by reflexivity.
    replace (b mod 16 * 4 mod 4 =? 0) with true
      by (symmetry; apply Z.eqb_eq; Z.to_euclidean_division_equations; lia).
    f_equal. f_equal; [|f_equal]; Z.to_euclidean_division_equations; lia.
  - inversion Hb as [|? ? Ha Hb']; subst.
    inversion Hb' as [|? ? Hb0 Hb'']; subst.
    inversion Hb'' as [|? ? Hc Hrest]; subst. unfold byte in *.
    cbn [encode decode].
    sextet (a / 4). sextet (a mod 4 * 16 + b / 16).
    sextet (b mod 16 * 4 + c / 64). sextet (c mod 64).
    rewrite (IH Hrest).
    f_equal. f_equal; [|f_equal; [|f_equal]];
      Z.to_euclidean_division_equations; lia.
Qed.

Lemma int16_to_bytes_byte k : Forall byte (int16_to_bytes k).
Proof.
  unfold int16_to_bytes, byte.
  repeat constructor; Z.to_euclidean_division_equations; lia.
Qed.

Lemma int16_of_to_bytes k :
  int16 k ->
  match int16_to_bytes k with
  | [lo; hi] => int16_of_bytes lo hi = k
  | _ => False
  end.
Proof.
  unfold int16, int16_to_bytes, int16_of_bytes. intro Hk. cbv zeta.
  destruct (_ <? 32768) eqn:E;
    [apply Z.ltb_lt in E|apply Z.ltb_ge in E];
    Z.to_euclidean_division_equations; lia.
Qed.

Lemma pack_bytes ks : Forall byte (flat_map int16_to_bytes ks).
Proof.
  induction ks as [|k ks IH]; cbn [flat_map]; [constructor|].
  apply Forall_app. split; [apply int16_to_bytes_byte|exact IH].
Qed.

Lemma unpack_pack ks :
  Forall int16 ks -> int16s_of_bytes (flat_map int16_to_bytes ks) = Some ks.
Proof.
  induction 1 as [|k ks Hk _ IH]; [reflexivity|].
  pose proof (int16_of_to_bytes k Hk) as H.
  cbn [flat_map]. destruct (int16_to_bytes k) as [|lo [|hi [|]]];
    try contradiction.
  cbn [app int16s_of_bytes]. rewrite IH, H. reflexivity.
Qed.

Lemma quantize_int16 x : int16 (quantize x).
Proof. unfold int16, quantize. lia. Qed.

Lemma pcm_roundtrip xs :
  pcm_decode (pcm_encode xs) = Some (map (fun x => dequantize (quantize x)) xs).
Proof.
  unfold pcm_decode, pcm_encode, createPcmBlob, decodeAudioData.
  rewrite <- (map_map quantize dequantize).
  replace (flat_map (fun x => int16_to_bytes (quantize x)) xs)
    with (flat_map int16_to_bytes (map quantize xs))
    by (rewrite flat_map_concat_map, map_map, <- flat_map_concat_map;
        reflexivity).
  rewrite decode_encode by apply pack_bytes.
  rewrite unpack_pack; [reflexivity|].
  apply Forall_forall. intros k Hk. apply in_map_iff in Hk.
  destruct Hk as (x & <- & _). apply quantize_int16.
Qed.

Local Open Scope Q_scope.

Lemma dequantize_scaled k : dequantize k == inject_Z k * (1 # 32768).
Proof. unfold dequantize, Qeq, Qmult, inject_Z. simpl. lia. Qed.

Lemma inject_Z_succ_le j k : (j < k)%Z -> inject_Z j + 1 <= inject_Z k.
Proof.
  intro H. change 1 with (inject_Z 1). rewrite <- inject_Z_plus.
  rewrite <- Zle_Qle. lia.
Qed.

(** Either the rounded value fits and is the step, or the sample is so
    close to 1 that the rounded value is 2^15 and the step is the last one. *)
Lemma quantize_cases x :
  -1 <= x <= 1 ->
  (inject_Z (quantize x) <= x * 32768 + (1 # 2)
   /\ x * 32768 + (1 # 2) < inject_Z (quantize x) + 1)
  \/ (quantize x = 32767%Z /\ 32768 <= x * 32768 + (1 # 2)).
Proof.
  intros [Hlo Hhi]. unfold quantize.
  set (s := x * 32768 + (1 # 2)).
  pose proof (Qfloor_le s) as Hfl. pose proof (Qlt_floor s) as Hfu.
  rewrite inject_Z_plus in Hfu. change (inject_Z 1) with 1 in Hfu.
  set (r := Qfloor s) in *.
  assert (Hr : (-32768 <= r <= 32768)%Z).
  { split.
    - apply Z.lt_succ_r. rewrite Zlt_Qlt.
      unfold Z.succ. rewrite inject_Z_plus.
      change (inject_Z 1) with 1. change (inject_Z (-32768)) with (-32768).
      subst s. lra.
    - rewrite Zle_Qle. change (inject_Z 32768) with 32768. subst s.
      apply Qnot_lt_le. intro Hc.
      assert (H1 : inject_Z 32768 + 1 <= inject_Z r)
        by (apply inject_Z_succ_le; rewrite Zlt_Qlt; exact Hc).
      change (inject_Z 32768) with 32768 in H1. lra. }
  destruct (Z.eq_dec r 32768) as [Htop|Htop].
  - right. split; [lia|].
    rewrite Htop in Hfl. exact Hfl.
  - left. replace (Z.max (-32768) (Z.min 32767 r)) with r by lia. auto.
Qed.

Lemma quantize_nearest x :
  -1 <= x <= 1 -> nearest_step x (dequantize (quantize x)).
Proof.
  intros Hx. split.
  - exists (quantize x). split; [apply quantize_int16|reflexivity].
  - intros j Hj. rewrite !dequantize_scaled.
    destruct (quantize_cases x Hx) as [[Hfl Hfu]|[Hq Htop]].
    + destruct (Z.lt_trichotomy j (quantize x)) as [Hjr|[Hjr|Hjr]].
      * apply inject_Z_succ_le in Hjr.
        apply Qabs_case; intro Ha; apply Qabs_case; intro Hb; lra.
      * subst j. apply Qle_refl.
      * apply inject_Z_succ_le in Hjr.
        apply Qabs_case; intro Ha; apply Qabs_case; intro Hb; lra.
    + rewrite Hq. destruct Hx as [_ Hhi].
      assert (Hjq : inject_Z j <= 32767).
      { change 32767 with (inject_Z 32767). rewrite <- Zle_Qle.
        unfold int16 in Hj. lia. }
      change (inject_Z 32767) with 32767.
      apply Qabs_case; intro Ha; apply Qabs_case; intro Hb; lra.
Qed.

Lemma quantize_within_step x :
  -1 <= x <= 1 -> within_step x (dequantize (quantize x)).
Proof.
  intros Hx. unfold within_step. rewrite dequantize_scaled.
  destruct (quantize_cases x Hx) as [[Hfl Hfu]|[Hq Htop]].
  - apply Qabs_case; intro Ha; lra.
  - rewrite Hq. destruct Hx as [_ Hhi]. change (inject_Z 32767) with 32767.
    apply Qabs_case; intro Ha; lra.
Qed.

(** C7. For samples in [-1, 1], decoding the encoded sequence succeeds and
    gives a sequence of the same length whose every sample is the 16-bit
    step nearest to the sample it comes from, at most one step away. *)
Theorem pcm_round_trip_is_nearest_step (xs : list Q) :
  Forall (fun x => -1 <= x <= 1) xs ->
  exists ys,
    pcm_decode (pcm_encode xs) = Some ys
    /\ List.length ys = List.length xs
    /\ Forall2 (fun x y => nearest_step x y /\ within_step x y) xs ys.
Proof.
  intro Hxs. exists (map (fun x => dequantize (quantize x)) xs).
  split; [apply pcm_roundtrip|]. split; [apply length_map|].
  induction Hxs as [|x xs Hx _ IH]; simpl; constructor; auto.
  split; [now apply quantize_nearest|now apply quantize_within_step].
Qed.

(** Both ends of the range, the middle, and two samples between. *)
Lemma pcm_round_trip_is_nearest_step_witness :
  Forall (fun x => -1 <= x <= 1) five_samples
  /\ exists ys,
       pcm_decode (pcm_encode five_samples) = Some ys
       /\ List.length ys = List.length five_samples
       /\ Forall2 (fun x y => nearest_step x y /\ within_step x y)
            five_samples ys.
Proof.
  assert (H : Forall (fun x => -1 <= x <= 1) five_samples)
    by (repeat constructor; discriminate).
  split; [exact H|]. exact (pcm_round_trip_is_nearest_step five_samples H).
Defined.

End Codec.

(** * Further properties *)

Import Page.

(** ** [startConversation] in closed form *)

Section Starting.

Context {audioUtils : Imports}.

Lemma startConversation_spec a w :
  startConversation a w =
  let w1 := callbacks (duringGetUserMedia a) (begin w) in
  match getUserMedia a with
  | Rejected err => Normal tt (caught err w1)
  | Fulfilled =>
      let w2 := callbacks (duringConnect a) (acquire w1) in
      match connect a with
      | Rejected err => Normal tt (caught err w2)
      | Fulfilled =>
          Normal tt (with_sessionRef (Some (S (S (S (nextHandle w1))))) w2)
      end
  end.
Proof.
  assert (Hbegin : forall k : M unit,
             bind (setConvState (fun prev =>
                     {| isActive := isActive prev; isConnecting := true;
                        error := None |}))
               (fun _ => try_catch (bind (emit GetUserMedia) (fun _ => k))
                  (fun err => bind (emit ConsoleError) (fun _ =>
                     setConvState (fun _ =>
                       {| isActive := false; isConnecting := false;
                          error := Some (message_or err
                                    "Failed to start microphone.") |})))) w
             = match k (begin w) with
               | Normal a w' => Normal a w'
               | Throw err w' => Normal tt (caught err w')
               end).
  { intro k. destruct w as [ms cs s ci co src nst cit cot st tr nh].
    unfold bind, try_catch, setConvState, emit, modify, get, bind, begin.
    cbn -[app]. rewrite <- app_assoc. cbn [app].
    destruct (k _) as [[] w'|err w']; [reflexivity|].
    destruct w'. unfold caught. cbn -[app]. rewrite <- app_assoc. reflexivity. }
  unfold startConversation. rewrite Hbegin. clear Hbegin.
  set (w0 := begin w). cbv zeta.
  unfold await at 1. unfold bind at 1. unfold modify at 1.
  destruct (getUserMedia a) as [|err]; [|reflexivity].
  unfold bind at 1. unfold ret at 1.
  set (w1 := callbacks (duringGetUserMedia a) w0).
  assert (Hacq : forall k : handle -> M unit,
     bind fresh (fun s => bind (modify (with_stream (Some s))) (fun _ =>
       bind fresh (fun ctxIn =>
         bind (emit (NewAudioContext ctxIn 16000%positive)) (fun _ =>
           bind (modify (with_audioContextInRef (Some ctxIn))) (fun _ =>
             bind fresh (fun ctxOut =>
               bind (emit (NewAudioContext ctxOut 24000%positive)) (fun _ =>
                 bind (modify (with_audioContextOutRef (Some ctxOut))) (fun _ =>
                   bind fresh (fun session =>
                     bind (emit (Connect session)) (fun _ =>
                       k session)))))))))) w1
     = k (S (S (S (nextHandle w1)))) (acquire w1)).
  { intro k. destruct w1 as [ms cs s ci co src nst cit cot st tr nh].
    unfold bind, fresh, emit, modify, acquire. cbn -[app].
    rewrite <- !app_assoc. reflexivity. }
  rewrite Hacq. clear Hacq.
  unfold await, bind, modify.
  destruct (connect a) as [|err]; reflexivity.
Qed.

End Starting.

(** ** Steps that keep the handles in order *)

Lemma closed_sessions_app l1 l2 :
  closed_sessions (l1 ++ l2) = closed_sessions l1 ++ closed_sessions l2.
Proof. apply flat_map_app. Qed.

Lemma closed_contexts_app l1 l2 :
  closed_contexts (l1 ++ l2) = closed_contexts l1 ++ closed_contexts l2.
Proof. apply flat_map_app. Qed.

Lemma started_app l1 l2 : started (l1 ++ l2) = started l1 ++ started l2.
Proof. apply flat_map_app. Qed.

Lemma connects_app l1 l2 : connects (l1 ++ l2) = connects l1 ++ connects l2.
Proof. apply flat_map_app. Qed.

Lemma created_contexts_app l1 l2 :
  created_contexts (l1 ++ l2) = created_contexts l1 ++ created_contexts l2.
Proof. apply flat_map_app. Qed.

Lemma map_SourceStop_plain l :
  closed_sessions (map SourceStop l) = []
  /\ closed_contexts (map SourceStop l) = []
  /\ started (map SourceStop l) = []
  /\ connects (map SourceStop l) = []
  /\ created_contexts (map SourceStop l) = [].
Proof. induction l as [|s l IH]; simpl; auto. Qed.

Lemma handles_kept w w' :
  keeps_handles w w' -> Handles_ok w -> Handles_ok w'.
Proof.
  intros (Hs & Hi & Ho & Hn & Hcs & Hcc) [].
  constructor; rewrite ?Hs, ?Hi, ?Ho, ?Hcs, ?Hcc; auto.
  - intros h Hh. specialize (session_known0 h Hh). lia.
  - intros h Hh. specialize (input_known0 h Hh). lia.
  - intros h Hh. specialize (output_known0 h Hh). lia.
  - eapply Forall_impl; [|exact closed_sessions_known0]. simpl. intros; lia.
  - eapply Forall_impl; [|exact closed_contexts_known0]. simpl. intros; lia.
Qed.

Lemma handles_closed w w' :
  closes_handles w w' -> Handles_ok w -> Handles_ok w'.
Proof.
  intros (Hs & Hi & Ho & Hn & Hcs & Hcc) [].
  constructor; rewrite ?Hs, ?Hi, ?Ho, ?Hcs, ?Hcc, ?Hn; try discriminate.
  - apply NoDup_app; auto.
    + destruct (sessionRef w); simpl; repeat constructor; intros [].
    + intros x Hx Hin. destruct (sessionRef w) as [h|] eqn:E; simpl in Hin;
        [|contradiction].
      destruct Hin as [<-|[]]. exact (session_open0 h eq_refl Hx).
  - apply NoDup_app; auto.
    + destruct (audioContextInRef w) as [a|], (audioContextOutRef w) as [b|];
        simpl; repeat constructor; simpl; try tauto.
      intros [Hab|[]].
      exact (contexts_differ0 a b eq_refl eq_refl (eq_sym Hab)).
    + intros x Hx Hin. apply in_app_or in Hin. destruct Hin as [Hin|Hin].
      * destruct (audioContextInRef w) as [a|]; simpl in Hin; [|contradiction].
        destruct Hin as [<-|[]]. exact (input_open0 a eq_refl Hx).
      * destruct (audioContextOutRef w) as [b|]; simpl in Hin;
          [|contradiction].
        destruct Hin as [<-|[]]. exact (output_open0 b eq_refl Hx).
  - apply Forall_app. split; [assumption|].
    destruct (sessionRef w) as [h|]; simpl; auto.
  - apply Forall_app. split; [assumption|]. apply Forall_app.
    destruct (audioContextInRef w) as [a|], (audioContextOutRef w) as [b|];
      simpl; auto.
Qed.

Lemma keeps_handles_refl w : keeps_handles w w.
Proof. repeat split; auto. Qed.

Lemma keeps_handles_trans w1 w2 w3 :
  keeps_handles w1 w2 -> keeps_handles w2 w3 -> keeps_handles w1 w3.
Proof.
  intros (Hs & Hi & Ho & Hn & Hcs & Hcc) (Hs' & Hi' & Ho' & Hn' & Hcs' & Hcc').
  repeat split; try congruence. lia.
Qed.

Lemma spare_kept h w w' : keeps_handles w w' -> spare h w -> spare h w'.
Proof.
  intros (Hs & _ & _ & Hn & Hcs & _) (Hh & Hc & Hr).
  repeat split; rewrite ?Hs, ?Hcs; auto. lia.
Qed.

Lemma spare_closed h w w' : closes_handles w w' -> spare h w -> spare h w'.
Proof.
  intros (Hs & _ & _ & Hn & Hcs & _) (Hh & Hc & Hr).
  repeat split; rewrite ?Hs, ?Hcs, ?Hn; auto; [|discriminate].
  intro Hin. apply in_app_or in Hin. destruct Hin as [Hin|Hin]; [auto|].
  destruct (sessionRef w) as [x|]; simpl in Hin; [|contradiction].
  destruct Hin as [<-|[]]. now apply Hr.
Qed.

(** The callbacks in closed form. *)
Lemma onopen_spec w :
  final (onopen w) =
  let s := {| isActive := true; isConnecting := false; error := None |} in
  with_trace
    (trace w ++ SetConvState s
       :: match audioContextInRef w, stream w with
          | Some ctx, Some m => [CaptureStart ctx m]
          | _, _ => []
          end)
    (with_convState s w).
Proof.
  destruct w as [ms cs s ci co src nst cit cot st tr nh].
  unfold onopen, bind, setConvState, get, modify, emit, bind. cbn -[app].
  destruct ci, st; cbn -[app]; rewrite <- ?app_assoc; reflexivity.
Qed.

Lemma onclose_spec w :
  final (onclose w) =
  with_trace (trace w ++ [SetConvState idle]) (with_convState idle w).
Proof. reflexivity. Qed.

Lemma closes_closed w :
  closed_sessions (closes w) = held (sessionRef w)
  /\ closed_contexts (closes w)
     = held (audioContextInRef w) ++ held (audioContextOutRef w).
Proof.
  unfold closes.
  destruct (sessionRef w), (audioContextInRef w), (audioContextOutRef w);
    split; reflexivity.
Qed.

Lemma stop_closes_handles w : closes_handles w (final (stopConversation w)).
Proof.
  rewrite stopConversation_spec. destruct (closes_closed w) as [Hs Hc].
  repeat split; simpl;
    rewrite ?closed_sessions_app, ?closed_contexts_app, ?Hs, ?Hc; simpl;
    now rewrite ?app_nil_r.
Qed.

Lemma onerror_closes_handles w : closes_handles w (final (onerror w)).
Proof.
  rewrite onerror_spec. destruct (closes_closed w) as [Hs Hc].
  unfold closes_handles, closed_sessions, closed_contexts in *.
  repeat split; simpl;
    rewrite ?flat_map_app; simpl; rewrite ?flat_map_app, ?Hs, ?Hc; simpl;
    now rewrite ?app_nil_r.
Qed.

Section Handles.

Context {audioUtils : Imports}.

Lemma after_audio_refs env m w :
  sessionRef (after_audio env m w) = sessionRef w
  /\ audioContextInRef (after_audio env m w) = audioContextInRef w
  /\ stream (after_audio env m w) = stream w
  /\ convState (after_audio env m w) = convState w.
Proof.
  rewrite after_audio_spec.
  destruct (turnComplete m), (interrupted m); simpl; auto.
Qed.

Lemma onmessage_keeps_handles env m w :
  keeps_handles w (final (onmessage env m w)).
Proof.
  assert (Hafter : forall w1, keeps_handles w1 (after_audio env m w1)).
  { intro w1. destruct (after_audio_refs env m w1) as (Hs & Hi & _).
    destruct (after_audio_playback env m w1) as (_ & _ & Ho & Hn).
    destruct (map_SourceStop_plain (sourcesRef w1)) as (H1 & H2 & _).
    repeat split; auto; [lia| |];
      rewrite after_audio_trace; destruct (interrupted m);
      rewrite ?closed_sessions_app, ?closed_contexts_app, ?H1, ?H2;
      simpl; now rewrite app_nil_r. }
  rewrite onmessage_after_audio, onmessage_audio_spec.
  destruct (audioContextOutRef w) as [ctx|] eqn:Hctx;
    [|destruct (readable m); simpl; [apply Hafter|apply keeps_handles_refl]].
  cbv zeta. destruct (chunk ctx m); simpl final.
  - apply Hafter.
  - apply keeps_handles_refl.
  - repeat split; auto.
  - eapply keeps_handles_trans; [|apply Hafter].
    repeat split; simpl; auto;
      rewrite ?closed_sessions_app, ?closed_contexts_app; simpl;
      now rewrite app_nil_r.
Qed.

Lemma callback_handles_step c w :
  keeps_handles w (final (callback c w))
  \/ closes_handles w (final (callback c w)).
Proof.
  destruct c as [|env m|source| |]; simpl callback.
  - left. rewrite onopen_spec. cbv zeta.
    repeat split; simpl; auto;
      rewrite ?closed_sessions_app, ?closed_contexts_app;
      destruct (audioContextInRef w), (stream w); simpl;
      now rewrite app_nil_r.
  - left. apply onmessage_keeps_handles.
  - left. repeat split; auto.
  - right. apply onerror_closes_handles.
  - left. rewrite onclose_spec.
    repeat split; simpl; auto;
      rewrite ?closed_sessions_app, ?closed_contexts_app; simpl;
      now rewrite app_nil_r.
Qed.

Lemma callback_handles c w :
  Handles_ok w -> Handles_ok (final (callback c w)).
Proof.
  destruct (callback_handles_step c w);
    [now apply handles_kept|now apply handles_closed].
Qed.

Lemma callback_spare h c w : spare h w -> spare h (final (callback c w)).
Proof.
  destruct (callback_handles_step c w);
    [now apply spare_kept|now apply spare_closed].
Qed.

Lemma callbacks_handles cs w :
  Handles_ok w -> Handles_ok (callbacks cs w).
Proof.
  revert w. induction cs as [|c cs IH]; intros w H; [exact H|].
  rewrite callbacks_cons. apply IH. now apply callback_handles.
Qed.

Lemma callbacks_spare h cs w : spare h w -> spare h (callbacks cs w).
Proof.
  revert w. induction cs as [|c cs IH]; intros w H; [exact H|].
  rewrite callbacks_cons. apply IH. now apply callback_spare.
Qed.

Lemma begin_keeps_handles w : keeps_handles w (begin w).
Proof.
  repeat split; simpl; auto;
    rewrite ?closed_sessions_app, ?closed_contexts_app; simpl;
    now rewrite app_nil_r.
Qed.

Lemma caught_keeps_handles err w : keeps_handles w (caught err w).
Proof.
  repeat split; simpl; auto;
    rewrite ?closed_sessions_app, ?closed_contexts_app; simpl;
    now rewrite app_nil_r.
Qed.

Lemma acquire_handles w :
  Handles_ok w ->
  Handles_ok (acquire w) /\ spare (S (S (S (nextHandle w)))) (acquire w).
Proof.
  intros []. split.
  - constructor; simpl;
      rewrite ?closed_sessions_app, ?closed_contexts_app; simpl;
      rewrite ?app_nil_r; auto.
    + intros c [= <-] Hin. rewrite Forall_forall in closed_contexts_known0.
      specialize (closed_contexts_known0 _ Hin). lia.
    + intros c [= <-] Hin. rewrite Forall_forall in closed_contexts_known0.
      specialize (closed_contexts_known0 _ Hin). lia.
    + intros a b [= <-] [= <-]. lia.
    + intros h Hh. specialize (session_known0 h Hh). lia.
    + intros c [= <-]. lia.
    + intros c [= <-]. lia.
    + eapply Forall_impl; [|exact closed_sessions_known0]. simpl. intros; lia.
    + eapply Forall_impl; [|exact closed_contexts_known0]. simpl. intros; lia.
  - repeat split; simpl; [lia| |].
    + rewrite closed_sessions_app. simpl. rewrite app_nil_r. intro Hin.
      rewrite Forall_forall in closed_sessions_known0.
      specialize (closed_sessions_known0 _ Hin). lia.
    + intro Hs. specialize (session_known0 _ Hs). lia.
Qed.

Lemma retain_handles h w :
  Handles_ok w -> spare h w -> Handles_ok (with_sessionRef (Some h) w).
Proof.
  intros [] (Hh & Hc & _). constructor; simpl; auto.
  - intros x [= <-]. exact Hc.
  - intros x [= <-]. exact Hh.
Qed.

Lemma start_handles a w :
  Handles_ok w -> Handles_ok (final (startConversation a w)).
Proof.
  intro H. rewrite startConversation_spec. cbv zeta.
  assert (H1 : Handles_ok (callbacks (duringGetUserMedia a) (begin w))).
  { apply callbacks_handles. eapply handles_kept; [apply begin_keeps_handles|].
    exact H. }
  destruct (getUserMedia a) as [|err]; simpl final.
  - destruct (acquire_handles _ H1) as [H2 Hspare].
    apply (callbacks_handles (duringConnect a)) in H2.
    apply (callbacks_spare _ (duringConnect a)) in Hspare.
    destruct (connect a) as [|err]; simpl final.
    + now apply retain_handles.
    + eapply handles_kept; [apply caught_keeps_handles|exact H2].
  - eapply handles_kept; [apply caught_keeps_handles|exact H1].
Qed.

Lemma click_handles a w : Handles_ok w -> Handles_ok (final (click a w)).
Proof.
  intro H. unfold click, bind, get.
  destruct (disabled (sessionButton (convState w))); [exact H|].
  destruct (onClick (sessionButton (convState w))).
  - now apply start_handles.
  - eapply handles_closed; [apply stop_closes_handles|exact H].
Qed.

Lemma step_handles e w : Handles_ok w -> Handles_ok (step w e).
Proof.
  destruct e; simpl; [apply click_handles|apply callback_handles].
Qed.

Lemma mount_handles : Handles_ok mount.
Proof.
  constructor; simpl; try discriminate; constructor.
Qed.

(** X2. Over any run of clicks and callbacks that starts in a world whose
    handles are in order, no session handle and no audio context is ever
    closed twice, and no reference holds a handle that was closed. *)
Theorem no_handle_is_closed_twice es w :
  Handles_ok w ->
  NoDup (closed_sessions (trace (run es w)))
  /\ NoDup (closed_contexts (trace (run es w)))
  /\ Handles_ok (run es w).
Proof.
  intro H.
  assert (Hrun : Handles_ok (run es w)).
  { revert w H. induction es as [|e es IH]; intros w H; [exact H|].
    simpl. apply IH. now apply step_handles. }
  destruct Hrun as [H1 H2]. split; [exact H1|]. split; [exact H2|].
  constructor; assumption.
Qed.

End Handles.

(** ** The stop sequence *)

Lemma stop_with_nothing_held w :
  sessionRef w = None -> audioContextInRef w = None ->
  audioContextOutRef w = None -> convState w = idle ->
  final (stopConversation w) = with_trace (trace w ++ [SetConvState idle]) w.
Proof.
  intros Hs Hi Ho Hc. rewrite stopConversation_spec. unfold closes.
  rewrite Hs, Hi, Ho. destruct w. simpl in *. subst. reflexivity.
Qed.

(** X1. The stop sequence can be repeated: a second [stopConversation]
    finds the three references cleared, closes nothing again, and only
    writes the idle state once more. *)
Theorem stop_twice_closes_once w :
  let w1 := final (stopConversation w) in
  let w2 := final (stopConversation w1) in
  w2 = with_trace (trace w1 ++ [SetConvState idle]) w1
  /\ new_trace w1 w2 = [SetConvState idle]
  /\ closed_sessions (trace w2) = closed_sessions (trace w1)
  /\ closed_contexts (trace w2) = closed_contexts (trace w1).
Proof.
  intros w1 w2.
  assert (H : w2 = with_trace (trace w1 ++ [SetConvState idle]) w1).
  { subst w2. apply stop_with_nothing_held; subst w1;
      rewrite stopConversation_spec; reflexivity. }
  split; [exact H|]. rewrite H.
  split; [apply new_trace_app; reflexivity|].
  split; simpl; [rewrite closed_sessions_app|rewrite closed_contexts_app];
    simpl; apply app_nil_r.
Qed.

(** ** The shape of the session state *)

Section Shape.

Context {audioUtils : Imports}.

Lemma onmessage_convState env m w :
  convState (final (onmessage env m w)) = convState w.
Proof.
  rewrite onmessage_after_audio, onmessage_audio_spec.
  destruct (audioContextOutRef w) as [ctx|]; cbv zeta;
    [destruct (chunk ctx m)|destruct (readable m)]; simpl final;
    try (destruct (after_audio_refs env m w) as (_ & _ & _ & ->); reflexivity);
    try reflexivity.
  match goal with
  | |- convState (after_audio env m ?x) = _ =>
      destruct (after_audio_refs env m x) as (_ & _ & _ & ->)
  end.
  reflexivity.
Qed.

(** What a callback leaves in the session state. *)
Lemma callback_convState c w :
  convState (final (callback c w)) =
  match c with
  | Open => {| isActive := true; isConnecting := false; error := None |}
  | ServerMessage _ _ | Ended _ => convState w
  | TransportError | TransportClose => idle
  end.
Proof.
  destruct c as [|env m|source| |]; simpl callback.
  - rewrite onopen_spec. reflexivity.
  - apply onmessage_convState.
  - reflexivity.
  - rewrite onerror_spec. reflexivity.
  - reflexivity.
Qed.

Lemma callbacks_shaped cs w :
  shaped (convState w) = true -> shaped (convState (callbacks cs w)) = true.
Proof.
  revert w. induction cs as [|c cs IH]; intros w H; [exact H|].
  rewrite callbacks_cons. apply IH. rewrite callback_convState.
  destruct c; auto.
Qed.

Lemma step_shaped e w :
  shaped (convState w) = true -> shaped (convState (step w e)) = true.
Proof.
  intro H. destruct e as [a|c]; simpl.
  - unfold click, bind, get, sessionButton.
    destruct (isActive (convState w)) eqn:Ha; simpl.
    + rewrite stopConversation_spec. reflexivity.
    + destruct (isConnecting (convState w)) eqn:Hc; simpl; [exact H|].
      rewrite startConversation_spec. cbv zeta.
      assert (H1 : shaped (convState
                 (callbacks (duringGetUserMedia a) (begin w))) = true).
      { apply callbacks_shaped. simpl. now rewrite Ha. }
      destruct (getUserMedia a) as [|err]; simpl final; [|reflexivity].
      assert (H2 : shaped (convState
                 (callbacks (duringConnect a)
                    (acquire (callbacks (duringGetUserMedia a) (begin w)))))
               = true).
      { apply callbacks_shaped. exact H1. }
      destruct (connect a) as [|err]; simpl final; [exact H2|reflexivity].
  - rewrite callback_convState. destruct c; auto.
Qed.

(** X3. Over any run of clicks and callbacks, the session state stays in
    one of its four shapes: idle, connecting, active, or idle with an
    error; it is never both active and connecting, and an error is never
    on record while the session is active or connecting. *)
Theorem session_state_keeps_its_shape es w :
  shaped (convState w) = true ->
  shaped (convState (run es w)) = true
  /\ (isActive (convState (run es w)) = true ->
      isConnecting (convState (run es w)) = false
      /\ error (convState (run es w)) = None).
Proof.
  intro H.
  assert (Hrun : shaped (convState (run es w)) = true).
  { revert w H. induction es as [|e es IH]; intros w H; [exact H|].
    simpl. apply IH. now apply step_shaped. }
  split; [exact Hrun|]. intro Ha. unfold shaped in Hrun. rewrite Ha in Hrun.
  destruct (isConnecting (convState (run es w))); [discriminate|].
  destruct (error (convState (run es w))); [discriminate|]. auto.
Qed.

End Shape.

(** ** The conversation log and the turn buffers *)

Lemma string_append_assoc (a b c : string) :
  ((a ++ b) ++ c)%string = (a ++ (b ++ c))%string.
Proof. induction a as [|x a IH]; simpl; [reflexivity|now rewrite IH]. Qed.

Lemma string_append_empty (a : string) : (a ++ "")%string = a.
Proof. induction a as [|x a IH]; simpl; [reflexivity|now rewrite IH]. Qed.

Lemma pending_fragment t b : pending t b = (b ++ fragment_text t)%string.
Proof.
  unfold pending, fragment_text.
  destruct t as [[[x|]]|]; simpl; try reflexivity.
  now rewrite string_append_empty.
Qed.

Lemma message_or_truthy err fallback :
  truthy fallback = true -> truthy (message_or err fallback) = true.
Proof.
  intro H. unfold message_or. destruct (message err) as [m|]; [|exact H].
  destruct (truthy m) eqn:E; assumption.
Qed.

Section Log.

Context {audioUtils : Imports}.

Lemma after_audio_log env m w :
  messages (after_audio env m w) =
  messages w
  ++ (if turnComplete m
      then flushed env (pending (inputTranscription m)
                          (currentInputTranscriptRef w))
             (pending (outputTranscription m) (currentOutputTranscriptRef w))
      else [])
  /\ currentInputTranscriptRef (after_audio env m w) =
     (if turnComplete m then ""
      else pending (inputTranscription m) (currentInputTranscriptRef w))
  /\ currentOutputTranscriptRef (after_audio env m w) =
     (if turnComplete m then ""
      else pending (outputTranscription m) (currentOutputTranscriptRef w)).
Proof.
  rewrite after_audio_spec.
  destruct (turnComplete m), (interrupted m); simpl;
    rewrite ?app_nil_r; auto.
Qed.

(** One message: what it adds to the log. *)
Lemma onmessage_log env m w :
  exists new,
    messages (final (onmessage env m w)) = messages w ++ new
    /\ (new <> [] -> turnComplete m = true).
Proof.
  rewrite onmessage_after_audio.
  destruct (onmessage_audio_frame env m w) as (Hm & _ & _ & _).
  destruct (onmessage_audio env m w) as [[] w1|err w1]; simpl in *.
  - destruct (after_audio_log env m w1) as (Hl & _). rewrite Hl, Hm.
    eexists. split; [reflexivity|].
    destruct (turnComplete m); [reflexivity|]. intro H. now elim H.
  - exists []. rewrite Hm, app_nil_r. split; [reflexivity|].
    intro H. now elim H.
Qed.

Lemma callback_log c w :
  exists new,
    messages (final (callback c w)) = messages w ++ new
    /\ (new <> [] ->
        exists env m, c = ServerMessage env m /\ turnComplete m = true).
Proof.
  destruct c as [|env m|source| |]; simpl callback.
  2:{ destruct (onmessage_log env m w) as (new & Hm & Ht).
      exists new. split; [exact Hm|]. intro H. exists env, m. auto. }
  all: exists []; rewrite app_nil_r; split;
    [|intro H; now elim H].
  - rewrite onopen_spec. reflexivity.
  - reflexivity.
  - rewrite onerror_spec. reflexivity.
  - reflexivity.
Qed.

Lemma callbacks_log cs w :
  exists new, messages (callbacks cs w) = messages w ++ new.
Proof.
  revert w. induction cs as [|c cs IH]; intro w.
  - exists []. now rewrite app_nil_r.
  - rewrite callbacks_cons.
    destruct (callback_log c w) as (n1 & H1 & _).
    destruct (IH (final (callback c w))) as (n2 & H2).
    exists (n1 ++ n2). now rewrite H2, H1, app_assoc.
Qed.

Lemma step_log e w : exists new, messages (step w e) = messages w ++ new.
Proof.
  destruct e as [a|c]; simpl.
  - unfold click, bind, get.
    destruct (disabled (sessionButton (convState w)));
      [exists []; now rewrite app_nil_r|].
    destruct (onClick (sessionButton (convState w))).
    + rewrite startConversation_spec. cbv zeta.
      destruct (callbacks_log (duringGetUserMedia a) (begin w)) as (n1 & H1).
      simpl in H1.
      destruct (getUserMedia a) as [|err]; simpl final;
        [|exists n1; exact H1].
      destruct (callbacks_log (duringConnect a)
                  (acquire (callbacks (duringGetUserMedia a) (begin w))))
        as (n2 & H2).
      simpl in H2. rewrite H1 in H2.
      destruct (connect a) as [|err]; simpl final;
        exists (n1 ++ n2); simpl messages; now rewrite H2, app_assoc.
    + rewrite stopConversation_spec. exists []. simpl. now rewrite app_nil_r.
  - destruct (callback_log c w) as (new & H & _). now exists new.
Qed.

Lemma run_log es w : exists new, messages (run es w) = messages w ++ new.
Proof.
  revert w. induction es as [|e es IH]; intro w.
  - exists []. now rewrite app_nil_r.
  - simpl. destruct (step_log e w) as (n1 & H1).
    destruct (IH (step w e)) as (n2 & H2).
    exists (n1 ++ n2). now rewrite H2, H1, app_assoc.
Qed.

(** X4. The conversation log only grows: every click and every callback
    keeps the messages already logged, in place and in order, and the only
    callback that can add to them is an inbound message with the
    turn-complete flag. *)
Theorem log_only_grows :
  (forall c w, exists new,
      messages (final (callback c w)) = messages w ++ new
      /\ (new <> [] ->
          exists env m, c = ServerMessage env m /\ turnComplete m = true))
  /\ (forall es w, exists new, messages (run es w) = messages w ++ new).
Proof. split; [exact callback_log|exact run_log]. Qed.

(** X12. Once a message is in the log, the empty-page placeholder is not
    rendered again, whatever clicks and callbacks follow. *)
Theorem placeholder_never_returns es w :
  messages w <> [] -> placeholder (view (run es w)) = false.
Proof.
  intro H. destruct (run_log es w) as (new & Hm).
  unfold view, render. simpl. rewrite Hm.
  destruct (messages w); [now elim H|]. reflexivity.
Qed.

(** X11. After a failed start the error banner is rendered, and its text
    is the recorded error, which is never empty. *)
Theorem failed_start_shows_its_error a w c err :
  fails a c err ->
  errorBanner (view (final (startConversation a w))) =
    Some (message_or err "Failed to start microphone.")
  /\ truthy (message_or err "Failed to start microphone.") = true.
Proof.
  intro H. pose proof (message_or_truthy err "Failed to start microphone."
                         eq_refl) as Ht.
  split; [|exact Ht].
  unfold view, render. simpl. rewrite (start_failure_state a w c err H).
  simpl. now rewrite Ht.
Qed.

Lemma audio_returns_same w w' m :
  audioContextOutRef w' = audioContextOutRef w ->
  audio_returns w m -> audio_returns w' m.
Proof. unfold audio_returns. now intros ->. Qed.

(** Line 97 throws on a model turn without parts, and only on one. *)
Lemma readable_parts m :
  readable m = false <->
  exists content, modelTurn m = Some content /\ parts content = None.
Proof.
  unfold readable, base64Audio.
  destruct (modelTurn m) as [[[[|part ps]|]]|]; simpl; split;
    try discriminate; try reflexivity.
  - intros (c & [= <-] & H). discriminate H.
  - intros (c & [= <-] & H). discriminate H.
  - intros _. eexists. split; reflexivity.
  - intros (c & H & _). discriminate H.
Qed.

Lemma chunk_readable ctx m : chunk ctx m = Unreadable <-> readable m = false.
Proof.
  unfold chunk, readable.
  destruct (base64Audio m) as [[p|]|err]; [| |now split];
    (split; [|discriminate]).
  - destruct (truthy p); [|discriminate].
    destruct (decode p) as [d|]; [|discriminate].
    destruct (decodeAudioData d ctx 24000 1); discriminate.
  - discriminate.
Qed.

(** [audio_returns] is the condition under which the audio part returns. *)
Lemma audio_returns_threw env m w :
  audio_returns w m <-> threw (onmessage_audio env m w) = false.
Proof.
  rewrite onmessage_audio_spec. unfold audio_returns.
  destruct (audioContextOutRef w) as [ctx|].
  - cbv zeta. pose proof (chunk_readable ctx m) as Hr.
    destruct (chunk ctx m) eqn:E; simpl; split; try discriminate; auto.
    + intros _. split; [|discriminate].
      destruct (readable m); [reflexivity|]. discriminate (proj2 Hr eq_refl).
    + intros [H _]. rewrite (proj1 Hr eq_refl) in H. discriminate H.
    + intros [_ H]. now elim H.
    + intros _. split; [|discriminate].
      destruct (readable m); [reflexivity|]. discriminate (proj2 Hr eq_refl).
  - destruct (readable m); simpl; split; auto.
    intros [H _]. discriminate H.
Qed.

(** A message whose audio part returns. *)
Lemma onmessage_returns env m w :
  audio_returns w m ->
  exists w1,
    onmessage_audio env m w = Normal tt w1
    /\ final (onmessage env m w) = after_audio env m w1.
Proof.
  intro H. apply (audio_returns_threw env) in H.
  rewrite onmessage_after_audio.
  destruct (onmessage_audio env m w) as [[] w1|err w1]; [|discriminate].
  exists w1. split; reflexivity.
Qed.

(** X5. Fragments add up across messages: after any sequence of messages
    without the turn-complete flag, each of which line 97 can read and
    none of which fails to decode, each turn buffer holds what it held
    before followed by the fragments of its side in arrival order (a
    fragment without text counts as the text "undefined"), and the log is
    as before. *)
Theorem fragments_add_up ms w :
  Forall (fun em => turnComplete (snd em) = false /\ audio_returns w (snd em))
    ms ->
  let w' := callbacks (server_messages ms) w in
  currentInputTranscriptRef w' =
    (currentInputTranscriptRef w ++ joined inputTranscription ms)%string
  /\ currentOutputTranscriptRef w' =
     (currentOutputTranscriptRef w ++ joined outputTranscription ms)%string
  /\ messages w' = messages w.
Proof.
  intro H. revert w H.
  induction ms as [|[env m] ms IH]; intros w H.
  - simpl. now rewrite !string_append_empty.
  - inversion H as [|? ? [Ht Hr] Hrest]; subst. simpl in Ht, Hr.
    simpl server_messages. rewrite callbacks_cons. simpl callback.
    destruct (onmessage_returns env m w Hr) as (w1 & Ha & Hf).
    destruct (onmessage_audio_frame env m w) as (Hm & _ & Hci & Hco).
    rewrite Ha in Hm, Hci, Hco. simpl in Hm, Hci, Hco.
    destruct (after_audio_log env m w1) as (Hl & Hi & Ho).
    rewrite Ht in Hl, Hi, Ho. rewrite app_nil_r in Hl.
    destruct (after_audio_playback env m w1) as (_ & _ & Hctx & _).
    assert (Hout : audioContextOutRef (final (onmessage env m w))
                   = audioContextOutRef w).
    { destruct (onmessage_keeps_handles env m w) as (_ & _ & Hx & _).
      exact Hx. }
    destruct (IH (final (onmessage env m w))) as (Hi' & Ho' & Hm').
    { eapply Forall_impl; [|exact Hrest]. intros em [H1 H2]. split; [exact H1|].
      eapply audio_returns_same; [exact Hout|exact H2]. }
    cbv zeta in *. rewrite Hi', Ho', Hm', Hf, Hi, Ho, Hl, Hci, Hco, Hm.
    unfold joined. simpl.
    rewrite !pending_fragment, !string_append_assoc. auto.
Qed.

(** X6. Once line 97 has read the message (its model turn, if any, has
    parts): without an output context, and for a message with no chunk or
    an empty one, the audio part does nothing: no decoding is tried (so
    even a garbled payload cannot fail), nothing is scheduled and no
    handle is used; the rest of the message is handled as usual. *)
Theorem audio_is_skipped env m w payload :
  base64Audio m = Value payload ->
  audioContextOutRef w = None \/ payload = None \/ payload = Some "" ->
  onmessage env m w = Normal tt (after_audio env m w)
  /\ starts (new_trace w (final (onmessage env m w))) = []
  /\ nextHandle (final (onmessage env m w)) = nextHandle w.
Proof.
  intros Hread H.
  assert (Ha : onmessage_audio env m w = Normal tt w).
  { rewrite onmessage_audio_spec. unfold readable, chunk. rewrite Hread.
    destruct (audioContextOutRef w) as [ctx|]; [|reflexivity].
    cbv zeta.
    destruct H as [H|[H|H]]; [discriminate| |]; rewrite H; reflexivity. }
  rewrite onmessage_after_audio, Ha. split; [reflexivity|]. simpl final.
  destruct (after_audio_playback env m w) as (_ & _ & _ & Hn).
  split; [|exact Hn].
  erewrite new_trace_app by apply after_audio_trace.
  destruct (interrupted m); [apply starts_stops|reflexivity].
Qed.

(** X19. A message whose model turn has no parts is dropped whole: line
    97 throws before anything else is read, so whatever fragments and
    flags the message carries, nothing is written, scheduled or stopped,
    and what arrives afterwards is handled as if the message had not
    arrived. *)
Theorem message_without_parts_is_dropped env m w content :
  modelTurn m = Some content ->
  parts content = None ->
  onmessage env m w = Throw typeError w
  /\ forall later,
       callbacks (ServerMessage env m :: later) w = callbacks later w.
Proof.
  intros Hturn Hparts.
  assert (H : onmessage env m w = Throw typeError w).
  { unfold onmessage, onmessage_audio, base64Audio, evaluate, bind.
    rewrite Hturn, Hparts. reflexivity. }
  split; [exact H|]. intro later. rewrite callbacks_cons. simpl callback.
  now rewrite H.
Qed.

End Log.

(** ** The playback timeline *)

Lemma Math_max_ge_l a b : (a <= Math_max a b)%Qc.
Proof.
  destruct (Qclt_le_dec a b) as [H|H].
  - rewrite Math_max_r by now apply Qclt_le_weak. now apply Qclt_le_weak.
  - rewrite Math_max_l by assumption. apply Qcle_refl.
Qed.

Lemma Math_max_ge_r a b : (b <= Math_max a b)%Qc.
Proof.
  destruct (Qclt_le_dec a b) as [H|H].
  - rewrite Math_max_r by now apply Qclt_le_weak. apply Qcle_refl.
  - rewrite Math_max_l by assumption. exact H.
Qed.

Lemma Set_add_in x h s : In x (Set_add h s) <-> x = h \/ In x s.
Proof.
  unfold Set_add. destruct (existsb (Nat.eqb h) s) eqn:E.
  - split; [auto|]. intros [->|H]; [|exact H].
    apply existsb_exists in E. destruct E as (y & Hy & Heq).
    apply Nat.eqb_eq in Heq. now subst.
  - rewrite in_app_iff. simpl. intuition.
Qed.

Section Timeline.

Context {audioUtils : Imports}.

(** One message without the interrupted flag: the cursor does not go
    back, and what it schedules starts at or after the old cursor. *)
Lemma onmessage_forward env m w :
  interrupted m = false ->
  let w' := final (onmessage env m w) in
  (nextStartTimeRef w <= nextStartTimeRef w')%Qc
  /\ Forall (fun t => (nextStartTimeRef w <= t)%Qc)
       (starts (new_trace w w')).
Proof.
  intros Hi w'. subst w'.
  assert (Hquiet : forall w1,
             nextStartTimeRef (after_audio env m w1) = nextStartTimeRef w1
             /\ trace (after_audio env m w1) = trace w1).
  { intro w1. destruct (after_audio_playback env m w1) as (_ & Hc & _).
    rewrite after_audio_trace, Hc, Hi, app_nil_r. auto. }
  rewrite onmessage_after_audio, onmessage_audio_spec.
  destruct (audioContextOutRef w) as [ctx|]; cbv zeta.
  - destruct (chunk ctx m) as [| | |d] eqn:Hchunk; simpl final.
    + destruct (Hquiet w) as [-> Ht]. split; [apply Qcle_refl|].
      unfold new_trace. rewrite Ht, skipn_all. constructor.
    + split; [apply Qcle_refl|].
      unfold new_trace. rewrite skipn_all. constructor.
    + split; [apply Math_max_ge_l|].
      unfold new_trace. simpl. rewrite skipn_all. constructor.
    + match goal with
      | |- context [after_audio env m ?x] => destruct (Hquiet x) as [-> Ht]
      end.
      simpl nextStartTimeRef. split.
      * eapply Qcle_trans; [apply Math_max_ge_l|].
        apply Qcle_plus_nonneg. eapply chunk_nonneg. exact Hchunk.
      * erewrite new_trace_app by (rewrite Ht; reflexivity).
        simpl. constructor; [apply Math_max_ge_l|constructor].
  - destruct (readable m); simpl final.
    + destruct (Hquiet w) as [-> Ht]. split; [apply Qcle_refl|].
      unfold new_trace. rewrite Ht, skipn_all. constructor.
    + split; [apply Qcle_refl|].
      unfold new_trace. rewrite skipn_all. constructor.
Qed.

Lemma callback_forward c w :
  uninterrupted c ->
  let w' := final (callback c w) in
  (nextStartTimeRef w <= nextStartTimeRef w')%Qc
  /\ Forall (fun t => (nextStartTimeRef w <= t)%Qc)
       (starts (new_trace w w')).
Proof.
  intro H. destruct c as [|env m|source| |]; simpl callback.
  - rewrite onopen_spec. cbv zeta. split; [apply Qcle_refl|].
    erewrite new_trace_app by reflexivity.
    destruct (audioContextInRef w), (stream w); constructor.
  - now apply onmessage_forward.
  - split; [apply Qcle_refl|]. unfold new_trace. simpl.
    rewrite skipn_all. constructor.
  - rewrite onerror_spec. split; [apply Qcle_refl|].
    erewrite new_trace_app by reflexivity. simpl.
    unfold closes.
    destruct (sessionRef w), (audioContextInRef w), (audioContextOutRef w);
      constructor.
  - split; [apply Qcle_refl|]. erewrite new_trace_app by reflexivity.
    constructor.
Qed.

Lemma callbacks_forward cs :
  Forall uninterrupted cs ->
  forall w,
    (nextStartTimeRef w <= nextStartTimeRef (callbacks cs w))%Qc
    /\ Forall (fun t => (nextStartTimeRef w <= t)%Qc)
         (starts (new_trace w (callbacks cs w))).
Proof.
  induction 1 as [|c cs Hc _ IH]; intro w.
  - simpl. split; [apply Qcle_refl|].
    unfold new_trace. rewrite skipn_all. constructor.
  - rewrite callbacks_cons.
    destruct (callback_forward c w Hc) as [H1 H2].
    destruct (IH (final (callback c w))) as [H3 H4].
    split; [eapply Qcle_trans; eassumption|].
    rewrite (new_trace_step w (final (callback c w)));
      [|apply appends_callback|apply extends_callbacks].
    rewrite starts_app. apply Forall_app. split; [exact H2|].
    eapply Forall_impl; [|exact H4]. simpl. intros t Ht.
    eapply Qcle_trans; eassumption.
Qed.

(** X7. A chunk that decodes never starts before the clock reading of its
    arrival nor before the cursor, and as long as no interrupted flag
    arrives, nothing scheduled later starts before that segment ends,
    whatever the timing of the arrivals. *)
Theorem segments_never_overlap env m w ctx d cs :
  audioContextOutRef w = Some ctx ->
  chunk ctx m = Decoded d ->
  interrupted m = false ->
  Forall uninterrupted cs ->
  let start := Math_max (nextStartTimeRef w) (currentTime env) in
  let w1 := final (onmessage env m w) in
  starts (new_trace w w1) = [start]
  /\ (currentTime env <= start)%Qc
  /\ (nextStartTimeRef w <= start)%Qc
  /\ Forall (fun t => (start + d <= t)%Qc)
       (starts (new_trace w1 (callbacks cs w1))).
Proof.
  intros Hctx Hchunk Hi Hcs start w1.
  destruct (onmessage_enqueues env m w ctx d Hctx Hchunk) as (Ht & Hc & _).
  rewrite Hi in Ht, Hc. fold start w1 in Ht, Hc.
  split; [now rewrite (new_trace_app _ _ _ Ht)|].
  split; [apply Math_max_ge_r|]. split; [apply Math_max_ge_l|].
  destruct (callbacks_forward cs Hcs w1) as [_ H]. now rewrite Hc in H.
Qed.

(** X8. A message that carries both a chunk that decodes and the
    interrupted flag starts the chunk and stops it in the same step, with
    every source that was active; nothing is left active and the cursor
    is back at 0. *)
Theorem chunk_of_a_barge_in_is_stopped_at_once env m w ctx d :
  audioContextOutRef w = Some ctx ->
  chunk ctx m = Decoded d ->
  interrupted m = true ->
  let w' := final (onmessage env m w) in
  new_trace w w' =
    SourceStart (nextHandle w)
      (Math_max (nextStartTimeRef w) (currentTime env))
    :: map SourceStop (Set_add (nextHandle w) (sourcesRef w))
  /\ In (nextHandle w) (stops (new_trace w w'))
  /\ sourcesRef w' = []
  /\ nextStartTimeRef w' = 0%Qc.
Proof.
  intros Hctx Hchunk Hi w'.
  destruct (onmessage_enqueues env m w ctx d Hctx Hchunk) as (Ht & Hc & _).
  rewrite Hi in Ht, Hc. fold w' in Ht, Hc.
  rewrite (new_trace_app _ _ _ Ht).
  split; [reflexivity|]. split.
  - simpl. rewrite stops_stops. apply Set_add_in. now left.
  - split; [|exact Hc]. subst w'.
    rewrite onmessage_after_audio, onmessage_audio_spec, Hctx, Hchunk.
    cbv zeta. simpl final.
    match goal with
    | |- sourcesRef (after_audio env m ?x) = _ =>
        destruct (after_audio_playback env m x) as (Hs & _)
    end.
    now rewrite Hs, Hi.
Qed.

End Timeline.

(** ** The active set *)

Lemma Set_add_NoDup h s : NoDup s -> NoDup (Set_add h s).
Proof.
  intro H. unfold Set_add. destruct (existsb (Nat.eqb h) s) eqn:E; [exact H|].
  apply NoDup_app; [exact H|repeat constructor; intros []|].
  intros x Hx [->|[]].
  assert (Hex : existsb (Nat.eqb x) s = true).
  { apply existsb_exists. exists x. split; [exact Hx|apply Nat.eqb_refl]. }
  congruence.
Qed.

Lemma Set_delete_in x h s : In x (Set_delete h s) <-> In x s /\ x <> h.
Proof.
  unfold Set_delete. rewrite filter_In, negb_true_iff, Nat.eqb_neq.
  intuition.
Qed.

Lemma Set_delete_absent h s : ~ In h s -> Set_delete h s = s.
Proof.
  intro H. unfold Set_delete. induction s as [|x s IH]; [reflexivity|].
  simpl. destruct (Nat.eqb h x) eqn:E.
  - apply Nat.eqb_eq in E. subst. elim H. now left.
  - simpl. f_equal. apply IH. intro Hin. apply H. now right.
Qed.

Lemma Set_delete_add h s : ~ In h s -> Set_delete h (Set_add h s) = s.
Proof.
  intro H. unfold Set_add.
  destruct (existsb (Nat.eqb h) s) eqn:E.
  - apply existsb_exists in E. destruct E as (y & Hy & Heq).
    apply Nat.eqb_eq in Heq. subst. contradiction.
  - unfold Set_delete. rewrite filter_app. simpl. rewrite Nat.eqb_refl. simpl.
    rewrite app_nil_r. now apply Set_delete_absent.
Qed.

(** A step that starts and stops nothing and leaves the active set. *)
Lemma sources_kept w w' :
  sourcesRef w' = sourcesRef w ->
  started (trace w') = started (trace w) ->
  stops (trace w') = stops (trace w) ->
  (nextHandle w <= nextHandle w')%nat ->
  Sources_ok w -> Sources_ok w'.
Proof.
  intros Hs Hst Hsp Hn []. constructor; rewrite ?Hs, ?Hst, ?Hsp; auto.
  eapply Forall_impl; [|exact started_known0]. simpl. intros; lia.
Qed.

(** A step that starts a new source and adds it to the active set. *)
Lemma sources_enqueued w w' t :
  trace w' = trace w ++ [SourceStart (nextHandle w) t] ->
  sourcesRef w' = Set_add (nextHandle w) (sourcesRef w) ->
  nextHandle w' = S (nextHandle w) ->
  Sources_ok w -> Sources_ok w'.
Proof.
  intros Ht Hs Hn [].
  assert (Hfresh : ~ In (nextHandle w) (started (trace w))).
  { intro Hin. rewrite Forall_forall in started_known0.
    specialize (started_known0 _ Hin). lia. }
  assert (Hst : started (trace w') = started (trace w) ++ [nextHandle w])
    by (rewrite Ht, started_app; reflexivity).
  assert (Hsp : stops (trace w') = stops (trace w))
    by (rewrite Ht, stops_app; simpl; apply app_nil_r).
  constructor; rewrite ?Hs, ?Hst, ?Hsp, ?Hn; auto.
  - apply NoDup_app; [assumption|repeat constructor; intros []|].
    intros x Hx [<-|[]]. contradiction.
  - intros x Hx. apply in_or_app. left. now apply stopped_started0.
  - now apply Set_add_NoDup.
  - intros x Hx. apply Set_add_in in Hx. apply in_or_app.
    destruct Hx as [->|Hx]; [right; now left|left; now apply active_started0].
  - intros x Hx. apply Set_add_in in Hx. destruct Hx as [->|Hx].
    + intro Hin. apply Hfresh. now apply stopped_started0.
    + now apply active_running0.
  - apply Forall_app. split.
    + eapply Forall_impl; [|exact started_known0]. simpl. intros; lia.
    + repeat constructor.
Qed.

(** A step that stops every active source and empties the set. *)
Lemma sources_interrupted w w' :
  trace w' = trace w ++ map SourceStop (sourcesRef w) ->
  sourcesRef w' = [] ->
  nextHandle w' = nextHandle w ->
  Sources_ok w -> Sources_ok w'.
Proof.
  intros Ht Hs Hn [].
  destruct (map_SourceStop_plain (sourcesRef w)) as (_ & _ & Hnone & _).
  assert (Hst : started (trace w') = started (trace w))
    by (rewrite Ht, started_app, Hnone; apply app_nil_r).
  assert (Hsp : stops (trace w') = stops (trace w) ++ sourcesRef w)
    by (rewrite Ht, stops_app, stops_stops; reflexivity).
  constructor; rewrite ?Hs, ?Hst, ?Hsp, ?Hn; auto;
    try solve [constructor|intros x []].
  - apply NoDup_app; auto. intros x Hx Hin. exact (active_running0 x Hin Hx).
  - intros x Hx. apply in_app_or in Hx. destruct Hx; auto.
Qed.

(** A step that takes one source out of the active set. *)
Lemma sources_ended w w' s :
  sourcesRef w' = Set_delete s (sourcesRef w) ->
  trace w' = trace w ->
  nextHandle w' = nextHandle w ->
  Sources_ok w -> Sources_ok w'.
Proof.
  intros Hs Ht Hn []. constructor; rewrite ?Hs, ?Ht, ?Hn; auto.
  - unfold Set_delete. now apply NoDup_filter.
  - intros x Hx. apply Set_delete_in in Hx. apply active_started0. tauto.
  - intros x Hx. apply Set_delete_in in Hx. apply active_running0. tauto.
Qed.

Section Sources.

Context {audioUtils : Imports}.

Lemma after_audio_sources env m w :
  Sources_ok w -> Sources_ok (after_audio env m w).
Proof.
  intro H. destruct (after_audio_playback env m w) as (Hs & _ & _ & Hn).
  pose proof (after_audio_trace env m w) as Ht.
  destruct (interrupted m).
  - now apply (sources_interrupted w).
  - rewrite app_nil_r in Ht.
    apply (sources_kept w); rewrite ?Ht; auto. lia.
Qed.

Lemma onmessage_sources env m w :
  Sources_ok w -> Sources_ok (final (onmessage env m w)).
Proof.
  intro H. rewrite onmessage_after_audio, onmessage_audio_spec.
  destruct (audioContextOutRef w) as [ctx|];
    [|destruct (readable m); simpl; [now apply after_audio_sources|exact H]].
  cbv zeta. destruct (chunk ctx m); simpl final.
  - now apply after_audio_sources.
  - exact H.
  - apply (sources_kept w); auto.
  - apply after_audio_sources.
    eapply (sources_enqueued w); [| | |exact H]; reflexivity.
Qed.

Lemma callback_sources c w :
  Sources_ok w -> Sources_ok (final (callback c w)).
Proof.
  intro H. destruct c as [|env m|source| |]; simpl callback.
  - rewrite onopen_spec. cbv zeta.
    apply (sources_kept w); simpl; auto;
      rewrite ?started_app, ?stops_app;
      destruct (audioContextInRef w), (stream w); simpl;
      now rewrite app_nil_r.
  - now apply onmessage_sources.
  - now apply (sources_ended w _ source).
  - rewrite onerror_spec.
    apply (sources_kept w); simpl; auto;
      unfold started, stops, closes; rewrite ?flat_map_app; simpl;
      rewrite ?flat_map_app;
      destruct (sessionRef w), (audioContextInRef w), (audioContextOutRef w);
      simpl; now rewrite app_nil_r.
  - rewrite onclose_spec.
    apply (sources_kept w); simpl; auto;
      rewrite ?started_app, ?stops_app; simpl; now rewrite app_nil_r.
Qed.

Lemma callbacks_sources cs w :
  Sources_ok w -> Sources_ok (callbacks cs w).
Proof.
  revert w. induction cs as [|c cs IH]; intros w H; [exact H|].
  rewrite callbacks_cons. apply IH. now apply callback_sources.
Qed.

Lemma begin_sources w : Sources_ok w -> Sources_ok (begin w).
Proof.
  apply sources_kept; simpl; auto;
    rewrite ?started_app, ?stops_app; simpl; now rewrite app_nil_r.
Qed.

Lemma caught_sources err w : Sources_ok w -> Sources_ok (caught err w).
Proof.
  apply sources_kept; simpl; auto;
    rewrite ?started_app, ?stops_app; simpl; now rewrite app_nil_r.
Qed.

Lemma acquire_sources w : Sources_ok w -> Sources_ok (acquire w).
Proof.
  apply sources_kept; simpl; auto;
    rewrite ?started_app, ?stops_app; simpl; rewrite ?app_nil_r; auto; lia.
Qed.

Lemma stop_sources w : Sources_ok w -> Sources_ok (final (stopConversation w)).
Proof.
  rewrite stopConversation_spec.
  apply sources_kept; simpl; auto;
    unfold started, stops, closes; rewrite ?flat_map_app;
    destruct (sessionRef w), (audioContextInRef w), (audioContextOutRef w);
    simpl; now rewrite app_nil_r.
Qed.

Lemma step_sources e w : Sources_ok w -> Sources_ok (step w e).
Proof.
  intro H. destruct e as [a|c]; simpl; [|now apply callback_sources].
  unfold click, bind, get.
  destruct (disabled (sessionButton (convState w))); [exact H|].
  destruct (onClick (sessionButton (convState w))); [|now apply stop_sources].
  rewrite startConversation_spec. cbv zeta.
  assert (H1 : Sources_ok (callbacks (duringGetUserMedia a) (begin w)))
    by now apply callbacks_sources, begin_sources.
  destruct (getUserMedia a) as [|err]; simpl final;
    [|now apply caught_sources].
  assert (H2 : Sources_ok
            (callbacks (duringConnect a)
               (acquire (callbacks (duringGetUserMedia a) (begin w)))))
    by now apply callbacks_sources, acquire_sources.
  destruct (connect a) as [|err]; simpl final; [|now apply caught_sources].
  eapply sources_kept; [| | | |exact H2]; reflexivity.
Qed.

Lemma mount_sources : Sources_ok mount.
Proof. constructor; simpl; try constructor; intros x []. Qed.

(** X9. Over any run of clicks and callbacks that starts in a world whose
    sources are in order, no source is started twice, none is stopped
    twice, only started sources are stopped, and the active set holds,
    once each, sources that were started and not stopped by force. *)
Theorem sources_start_and_stop_once es w :
  Sources_ok w ->
  NoDup (started (trace (run es w)))
  /\ NoDup (stops (trace (run es w)))
  /\ incl (stops (trace (run es w))) (started (trace (run es w)))
  /\ NoDup (sourcesRef (run es w))
  /\ (forall s, In s (sourcesRef (run es w)) ->
        In s (started (trace (run es w)))
        /\ ~ In s (stops (trace (run es w)))).
Proof.
  intro H.
  assert (Hrun : Sources_ok (run es w)).
  { revert w H. induction es as [|e es IH]; intros w H; [exact H|].
    simpl. apply IH. now apply step_sources. }
  destruct Hrun. repeat split; auto.
Qed.

(** X10. A chunk that is scheduled and then ends by itself leaves the
    active set as it was before the chunk arrived. *)
Theorem ended_source_leaves_the_set env m w ctx d :
  Sources_ok w ->
  audioContextOutRef w = Some ctx ->
  chunk ctx m = Decoded d ->
  interrupted m = false ->
  let w1 := final (onmessage env m w) in
  sourcesRef w1 = sourcesRef w ++ [nextHandle w]
  /\ sourcesRef (final (onended (nextHandle w) w1)) = sourcesRef w.
Proof.
  intros H Hctx Hchunk Hi w1.
  assert (Hfresh : ~ In (nextHandle w) (sourcesRef w)).
  { intro Hin. destruct H. apply active_started0 in Hin.
    rewrite Forall_forall in started_known0.
    specialize (started_known0 _ Hin). lia. }
  assert (Hs : sourcesRef w1 = Set_add (nextHandle w) (sourcesRef w)).
  { subst w1. rewrite onmessage_after_audio, onmessage_audio_spec, Hctx, Hchunk.
    cbv zeta. simpl final.
    match goal with
    | |- sourcesRef (after_audio env m ?x) = _ =>
        destruct (after_audio_playback env m x) as (Hx & _)
    end.
    now rewrite Hx, Hi. }
  split.
  - rewrite Hs. unfold Set_add.
    destruct (existsb (Nat.eqb (nextHandle w)) (sourcesRef w)) eqn:E;
      [|reflexivity].
    apply existsb_exists in E. destruct E as (y & Hy & Heq).
    apply Nat.eqb_eq in Heq. subst. contradiction.
  - simpl. rewrite Hs. now apply Set_delete_add.
Qed.

End Sources.

(** ** What a start acquires and what it leaves behind *)

Section Acquiring.

Context {audioUtils : Imports}.

Lemma onmessage_plain env m w :
  connects (trace (final (onmessage env m w))) = connects (trace w)
  /\ created_contexts (trace (final (onmessage env m w)))
     = created_contexts (trace w).
Proof.
  assert (Hafter : forall w1,
             connects (trace (after_audio env m w1)) = connects (trace w1)
             /\ created_contexts (trace (after_audio env m w1))
                = created_contexts (trace w1)).
  { intro w1. rewrite after_audio_trace.
    destruct (map_SourceStop_plain (sourcesRef w1)) as (_ & _ & _ & H1 & H2).
    rewrite connects_app, created_contexts_app.
    destruct (interrupted m); rewrite ?H1, ?H2; simpl;
      now rewrite !app_nil_r. }
  rewrite onmessage_after_audio, onmessage_audio_spec.
  destruct (audioContextOutRef w) as [ctx|];
    [|destruct (readable m); simpl; [apply Hafter|auto]].
  cbv zeta. destruct (chunk ctx m); simpl final.
  - apply Hafter.
  - auto.
  - auto.
  - match goal with
    | |- context [after_audio env m ?x] => destruct (Hafter x) as [-> ->]
    end.
    simpl. rewrite connects_app, created_contexts_app. simpl.
    now rewrite !app_nil_r.
Qed.

Lemma callback_plain c w :
  connects (trace (final (callback c w))) = connects (trace w)
  /\ created_contexts (trace (final (callback c w)))
     = created_contexts (trace w).
Proof.
  destruct c as [|env m|source| |]; simpl callback.
  - rewrite onopen_spec. cbv zeta. simpl.
    rewrite connects_app, created_contexts_app.
    destruct (audioContextInRef w), (stream w); simpl;
      now rewrite !app_nil_r.
  - apply onmessage_plain.
  - auto.
  - rewrite onerror_spec. simpl. unfold connects, created_contexts, closes.
    rewrite !flat_map_app. simpl. rewrite !flat_map_app.
    destruct (sessionRef w), (audioContextInRef w), (audioContextOutRef w);
      simpl; now rewrite !app_nil_r.
  - rewrite onclose_spec. simpl. rewrite connects_app, created_contexts_app.
    simpl. now rewrite !app_nil_r.
Qed.

Lemma callbacks_plain cs w :
  connects (trace (callbacks cs w)) = connects (trace w)
  /\ created_contexts (trace (callbacks cs w)) = created_contexts (trace w).
Proof.
  revert w. induction cs as [|c cs IH]; intro w; [auto|].
  rewrite callbacks_cons. destruct (IH (final (callback c w))) as [-> ->].
  apply callback_plain.
Qed.

Lemma start_extends a w : extends w (final (startConversation a w)).
Proof.
  rewrite startConversation_spec. cbv zeta.
  assert (H0 : extends w (begin w)) by (eexists; reflexivity).
  assert (H1 : extends w (callbacks (duringGetUserMedia a) (begin w)))
    by (eapply extends_trans; [exact H0|apply extends_callbacks]).
  assert (Hcaught : forall err x, extends x (caught err x))
    by (intros; eexists; reflexivity).
  destruct (getUserMedia a) as [|err]; simpl final;
    [|eapply extends_trans; [exact H1|apply Hcaught]].
  assert (H2 : extends w
            (callbacks (duringConnect a)
               (acquire (callbacks (duringGetUserMedia a) (begin w))))).
  { eapply extends_trans; [exact H1|].
    eapply extends_trans; [|apply extends_callbacks]. eexists. reflexivity. }
  destruct (connect a) as [|err]; simpl final;
    [|eapply extends_trans; [exact H2|apply Hcaught]].
  destruct H2 as [added H2]. exists added. exact H2.
Qed.

(** What a start adds to the requests for a session and to the audio
    contexts made. *)
Lemma start_requests a w :
  let w' := final (startConversation a w) in
  let n := nextHandle (callbacks (duringGetUserMedia a) (begin w)) in
  connects (new_trace w w') =
    match getUserMedia a with
    | Fulfilled => [S (S (S n))]
    | Rejected _ => []
    end
  /\ created_contexts (new_trace w w') =
     match getUserMedia a with
     | Fulfilled => [S n; S (S n)]
     | Rejected _ => []
     end.
Proof.
  intros w' n.
  destruct (start_extends a w) as [added Hadded]. fold w' in Hadded.
  rewrite (new_trace_app _ _ _ Hadded).
  assert (H : connects (trace w') =
              connects (trace w)
              ++ match getUserMedia a with
                 | Fulfilled => [S (S (S n))]
                 | Rejected _ => []
                 end
              /\ created_contexts (trace w') =
                 created_contexts (trace w)
                 ++ match getUserMedia a with
                    | Fulfilled => [S n; S (S n)]
                    | Rejected _ => []
                    end).
  { subst w' n. rewrite startConversation_spec. cbv zeta.
    destruct (callbacks_plain (duringGetUserMedia a) (begin w)) as [H1 H2].
    simpl in H1, H2. rewrite connects_app in H1.
    rewrite created_contexts_app in H2. simpl in H1, H2.
    rewrite app_nil_r in H1, H2.
    destruct (getUserMedia a) as [|err]; simpl final.
    - destruct (callbacks_plain (duringConnect a)
                  (acquire (callbacks (duringGetUserMedia a) (begin w))))
        as [H3 H4].
      simpl in H3, H4. rewrite connects_app in H3.
      rewrite created_contexts_app in H4. simpl in H3, H4.
      rewrite H1 in H3. rewrite H2 in H4.
      destruct (connect a) as [|err]; simpl final; simpl;
        rewrite ?connects_app, ?created_contexts_app; simpl;
        rewrite ?app_nil_r; auto.
    - simpl. rewrite connects_app, created_contexts_app. simpl.
      rewrite !app_nil_r. auto. }
  destruct H as [Hc Hx]. rewrite Hadded in Hc, Hx.
  rewrite connects_app in Hc. rewrite created_contexts_app in Hx.
  apply app_inv_head in Hc. apply app_inv_head in Hx. auto.
Qed.

(** X13. A start whose two waits succeed asks for exactly one session and
    makes exactly two audio contexts, and when it ends [sessionRef] holds
    the session it asked for, whatever callbacks ran in between, a
    transport error included. *)
Theorem start_retains_the_session_it_asked_for a w :
  getUserMedia a = Fulfilled ->
  connect a = Fulfilled ->
  let w' := final (startConversation a w) in
  exists session ctxIn ctxOut,
    sessionRef w' = Some session
    /\ connects (new_trace w w') = [session]
    /\ created_contexts (new_trace w w') = [ctxIn; ctxOut]
    /\ ctxIn <> ctxOut.
Proof.
  intros Hm Hc w'. destruct (start_requests a w) as [H1 H2].
  fold w' in H1, H2. rewrite Hm in H1, H2.
  do 3 eexists. split; [|split; [exact H1|split; [exact H2|lia]]].
  subst w'. rewrite startConversation_spec. cbv zeta. rewrite Hm, Hc.
  reflexivity.
Qed.

(** X14. A start that is refused the microphone acquires nothing: it
    makes no audio context and asks for no session, whatever callbacks
    ran while it waited. *)
Theorem refused_start_acquires_nothing a w err :
  getUserMedia a = Rejected err ->
  let w' := final (startConversation a w) in
  connects (new_trace w w') = []
  /\ created_contexts (new_trace w w') = [].
Proof.
  intros Hm w'. destruct (start_requests a w) as [H1 H2].
  fold w' in H1, H2. rewrite Hm in H1, H2. auto.
Qed.

(** X15. A start that gets the microphone but not the transport leaves
    the two audio contexts it made in the references, not closed; the
    [catch] block releases nothing, and the state it records offers the
    start button, not the stop button. *)
Theorem failed_open_leaves_its_contexts a w err :
  Handles_ok w ->
  getUserMedia a = Fulfilled ->
  connect a = Rejected err ->
  duringConnect a = [] ->
  let w' := final (startConversation a w) in
  exists ctxIn ctxOut,
    created_contexts (new_trace w w') = [ctxIn; ctxOut]
    /\ audioContextInRef w' = Some ctxIn
    /\ audioContextOutRef w' = Some ctxOut
    /\ ~ In ctxIn (closed_contexts (trace w'))
    /\ ~ In ctxOut (closed_contexts (trace w'))
    /\ onClick (sessionButton (convState w')) = StartConversation
    /\ disabled (sessionButton (convState w')) = false.
Proof.
  intros Hok Hm Hc Hd w'.
  destruct (start_requests a w) as [_ H2]. fold w' in H2. rewrite Hm in H2.
  pose proof (start_handles a w Hok) as Hok'. fold w' in Hok'.
  assert (Hw' : w' = caught err
                  (acquire (callbacks (duringGetUserMedia a) (begin w)))).
  { subst w'. rewrite startConversation_spec. cbv zeta.
    rewrite Hm, Hc, Hd. reflexivity. }
  do 2 eexists. split; [exact H2|].
  assert (Hi : audioContextInRef w'
               = Some (S (nextHandle
                            (callbacks (duringGetUserMedia a) (begin w)))))
    by (rewrite Hw'; reflexivity).
  assert (Ho : audioContextOutRef w'
               = Some (S (S (nextHandle
                               (callbacks (duringGetUserMedia a) (begin w))))))
    by (rewrite Hw'; reflexivity).
  split; [exact Hi|]. split; [exact Ho|].
  split; [exact (input_open _ Hok' _ Hi)|].
  split; [exact (output_open _ Hok' _ Ho)|].
  rewrite Hw'. split; reflexivity.
Qed.

(** Callbacks other than inbound messages leave the cursor, the turn
    buffers and the log alone. *)
Lemma callbacks_keep_playback cs :
  Forall not_a_message cs ->
  forall w,
    nextStartTimeRef (callbacks cs w) = nextStartTimeRef w
    /\ currentInputTranscriptRef (callbacks cs w) = currentInputTranscriptRef w
    /\ currentOutputTranscriptRef (callbacks cs w)
       = currentOutputTranscriptRef w
    /\ messages (callbacks cs w) = messages w.
Proof.
  induction 1 as [|c cs Hc _ IH]; intro w; [auto|].
  rewrite callbacks_cons.
  destruct (IH (final (callback c w))) as (-> & -> & -> & ->).
  destruct c as [|env m|source| |]; simpl callback; try contradiction.
  - rewrite onopen_spec. auto.
  - auto.
  - rewrite onerror_spec. auto.
  - auto.
Qed.

Lemma restart_keeps_playback a w :
  quiet a ->
  let w' := final (startConversation a (final (stopConversation w))) in
  nextStartTimeRef w' = nextStartTimeRef w
  /\ currentInputTranscriptRef w' = currentInputTranscriptRef w
  /\ currentOutputTranscriptRef w' = currentOutputTranscriptRef w
  /\ messages w' = messages w.
Proof.
  intros [Hq1 Hq2] w'. subst w'.
  rewrite startConversation_spec, stopConversation_spec. cbv zeta.
  simpl final at 2 3 4.
  match goal with
  | |- context [callbacks (duringGetUserMedia a) ?x] =>
      destruct (callbacks_keep_playback _ Hq1 x) as (H1 & H2 & H3 & H4);
      set (w1 := callbacks (duringGetUserMedia a) x) in *
  end.
  simpl in H1, H2, H3, H4.
  destruct (getUserMedia a) as [|err]; simpl final; [|auto].
  destruct (callbacks_keep_playback _ Hq2 (acquire w1)) as (H5 & H6 & H7 & H8).
  simpl in H5, H6, H7, H8.
  rewrite H1 in H5. rewrite H2 in H6. rewrite H3 in H7. rewrite H4 in H8.
  destruct (connect a) as [|err]; simpl final; auto.
Qed.

(** X16. Stopping a session and starting the next one resets none of the
    playback cursor, the two turn buffers and the log: when no inbound
    message arrives during the start, all four are after the restart what
    they were before the stop. *)
Theorem restart_keeps_cursor_and_buffers a w :
  quiet a ->
  let w' := final (startConversation a (final (stopConversation w))) in
  nextStartTimeRef w' = nextStartTimeRef w
  /\ currentInputTranscriptRef w' = currentInputTranscriptRef w
  /\ currentOutputTranscriptRef w' = currentOutputTranscriptRef w
  /\ messages w' = messages w.
Proof. exact (restart_keeps_playback a w). Qed.

(** X17. The cursor of a stopped session delays the next one: after a
    stop and a start, a first chunk that arrives while the clock of the
    new output context is still behind the old cursor is scheduled at the
    old cursor, not at its arrival. *)
Theorem stale_cursor_delays_the_next_session a w env m ctx d :
  quiet a ->
  let w' := final (startConversation a (final (stopConversation w))) in
  audioContextOutRef w' = Some ctx ->
  chunk ctx m = Decoded d ->
  (currentTime env <= nextStartTimeRef w)%Qc ->
  starts (new_trace w' (final (onmessage env m w'))) = [nextStartTimeRef w].
Proof.
  intros Hq w' Hctx Hchunk Hlate.
  destruct (restart_keeps_playback a w Hq) as (Hc & _). fold w' in Hc.
  destruct (onmessage_enqueues env m w' ctx d Hctx Hchunk) as (Ht & _).
  rewrite (new_trace_app _ _ _ Ht), Hc, (Math_max_l _ _ Hlate). simpl.
  destruct (interrupted m); [now rewrite starts_stops|reflexivity].
Qed.

End Acquiring.

(** ** The first step of a start *)

Section FirstStep.

Context {audioUtils : Imports}.

Lemma callbacks_no_error cs w :
  error (convState w) = None -> error (convState (callbacks cs w)) = None.
Proof.
  revert w. induction cs as [|c cs IH]; intros w H; [exact H|].
  rewrite callbacks_cons. apply IH. rewrite callback_convState.
  destruct c; auto.
Qed.

Lemma extends_caught err w : extends w (caught err w).
Proof. eexists. reflexivity. Qed.

Lemma extends_acquire w : extends w (acquire w).
Proof. eexists. reflexivity. Qed.

(** C10. [startConversation], whatever the state it is called in and
    whatever happens later, first writes a session state with
    [isConnecting] set and no error, and only then asks for the
    microphone; every other collaborator call comes later still. The
    state in which it waits for the microphone, and in which the callbacks
    that arrive meanwhile run, has [isConnecting] set and no error, and is
    otherwise the state of the call. No error on record before the call
    is left after it: when the call ends the error is the one of this very
    attempt if it failed, and there is none if it did not. *)
Theorem start_first_sets_connecting_and_clears_error (a : Answers) (w : World) :
  let s := {| isActive := isActive (convState w);
              isConnecting := true; error := None |} in
  let waiting := begin w in
  (exists rest,
     trace (final (startConversation a w)) =
     trace w ++ SetConvState s :: GetUserMedia :: rest)
  /\ convState waiting = s
  /\ new_trace w waiting = [SetConvState s; GetUserMedia]
  /\ with_trace (trace w) (with_convState (convState w) waiting) = w
  /\ startConversation a w =
     (let w1 := callbacks (duringGetUserMedia a) waiting in
      match getUserMedia a with
      | Rejected err => Normal tt (caught err w1)
      | Fulfilled =>
          let w2 := callbacks (duringConnect a) (acquire w1) in
          match connect a with
          | Rejected err => Normal tt (caught err w2)
          | Fulfilled =>
              Normal tt (with_sessionRef (Some (S (S (S (nextHandle w1))))) w2)
          end
      end)
  /\ error (convState (final (startConversation a w))) =
     match getUserMedia a, connect a with
     | Rejected err, _ | Fulfilled, Rejected err =>
         Some (message_or err "Failed to start microphone.")
     | Fulfilled, Fulfilled => None
     end.
Proof.
  intros s waiting.
  pose proof (startConversation_spec a w) as Hspec. cbv zeta in Hspec.
  fold waiting in Hspec.
  set (w1 := callbacks (duringGetUserMedia a) waiting) in *.
  set (w2 := callbacks (duringConnect a) (acquire w1)) in *.
  assert (H1 : extends waiting w1) by apply extends_callbacks.
  assert (H2 : extends waiting w2).
  { eapply extends_trans; [exact H1|].
    eapply extends_trans; [apply extends_acquire|apply extends_callbacks]. }
  assert (E1 : error (convState w1) = None).
  { apply callbacks_no_error. reflexivity. }
  assert (E2 : error (convState w2) = None).
  { apply callbacks_no_error. exact E1. }
  assert (Hfirst : forall w', extends waiting w' ->
            exists rest,
              trace w' = trace w ++ SetConvState s :: GetUserMedia :: rest).
  { intros w' [rest Hr]. exists rest. rewrite Hr. subst waiting. simpl.
    now rewrite <- app_assoc. }
  split; [|split; [reflexivity|split; [|split; [|split; [exact Hspec|]]]]].
  - rewrite Hspec. apply Hfirst.
    destruct (getUserMedia a) as [|err]; simpl final.
    + destruct (connect a) as [|err]; simpl final.
      * destruct H2 as [rest Hr]. exists rest. exact Hr.
      * eapply extends_trans; [exact H2|apply extends_caught].
    + eapply extends_trans; [exact H1|apply extends_caught].
  - apply new_trace_app. reflexivity.
  - destruct w. reflexivity.
  - rewrite Hspec.
    destruct (getUserMedia a) as [|err]; [|reflexivity].
    destruct (connect a) as [|err]; [exact E2|reflexivity].
Qed.

End FirstStep.

(** ** Audio contexts that are never closed *)

Lemma lost_kept c w w' : keeps_handles w w' -> lost c w -> lost c w'.
Proof.
  intros (_ & Hi & Ho & Hn & _ & Hcc) (Hc & Hx & Hin & Hout).
  repeat split; rewrite ?Hi, ?Ho, ?Hcc; auto. lia.
Qed.

Lemma lost_closed c w w' : closes_handles w w' -> lost c w -> lost c w'.
Proof.
  intros (_ & Hi & Ho & Hn & _ & Hcc) (Hc & Hx & Hin & Hout).
  repeat split; rewrite ?Hi, ?Ho, ?Hcc, ?Hn; auto; try discriminate.
  intro H. apply in_app_or in H. destruct H as [H|H]; [auto|].
  apply in_app_or in H. destruct H as [H|H].
  - destruct (audioContextInRef w) as [x|]; simpl in H; [|contradiction].
    destruct H as [<-|[]]. now apply Hin.
  - destruct (audioContextOutRef w) as [x|]; simpl in H; [|contradiction].
    destruct H as [<-|[]]. now apply Hout.
Qed.

Lemma lost_acquire c w : (c < nextHandle w)%nat ->
  ~ In c (closed_contexts (trace w)) -> lost c (acquire w).
Proof.
  intros Hc Hx. repeat split; simpl.
  - lia.
  - rewrite closed_contexts_app. simpl. now rewrite app_nil_r.
  - intros [= H]. lia.
  - intros [= H]. lia.
Qed.

Section Leaks.

Context {audioUtils : Imports}.

Lemma callbacks_lost c cs w : lost c w -> lost c (callbacks cs w).
Proof.
  revert w. induction cs as [|x cs IH]; intros w H; [exact H|].
  rewrite callbacks_cons. apply IH.
  destruct (callback_handles_step x w);
    [now apply (lost_kept c w)|now apply (lost_closed c w)].
Qed.

Lemma start_lost c a w :
  lost c w -> lost c (final (startConversation a w)).
Proof.
  intro H. rewrite startConversation_spec. cbv zeta.
  assert (H1 : lost c (callbacks (duringGetUserMedia a) (begin w))).
  { apply callbacks_lost. eapply lost_kept; [apply begin_keeps_handles|].
    exact H. }
  destruct (getUserMedia a) as [|err]; simpl final;
    [|eapply lost_kept; [apply caught_keeps_handles|exact H1]].
  assert (H2 : lost c (callbacks (duringConnect a)
                         (acquire (callbacks (duringGetUserMedia a)
                                     (begin w))))).
  { apply callbacks_lost. destruct H1 as (Hc & Hx & _).
    now apply lost_acquire. }
  destruct (connect a) as [|err]; simpl final;
    [|eapply lost_kept; [apply caught_keeps_handles|exact H2]].
  destruct H2 as (Hc & Hx & Hi & Ho). repeat split; auto.
Qed.

Lemma run_lost c es w : lost c w -> lost c (run es w).
Proof.
  revert w. induction es as [|e es IH]; intros w H; [exact H|].
  simpl. apply IH. destruct e as [a|x]; simpl.
  - unfold click, bind, get.
    destruct (disabled (sessionButton (convState w))); [exact H|].
    destruct (onClick (sessionButton (convState w))).
    + now apply start_lost.
    + eapply lost_closed; [apply stop_closes_handles|exact H].
  - destruct (callback_handles_step x w);
      [now apply (lost_kept c w)|now apply (lost_closed c w)].
Qed.

(** X18. After a remote close the page offers the start button, and the
    next start, once it has the microphone, replaces the two audio
    contexts of the closed session without closing them: whatever clicks
    and callbacks follow, those two contexts are never closed. *)
Theorem remote_close_then_restart_leaks_contexts a es w ctxIn ctxOut :
  Handles_ok w ->
  audioContextInRef w = Some ctxIn ->
  audioContextOutRef w = Some ctxOut ->
  getUserMedia a = Fulfilled ->
  duringGetUserMedia a = [] ->
  let w' := run (Transport TransportClose :: Click a :: es) w in
  ~ In ctxIn (closed_contexts (trace w'))
  /\ ~ In ctxOut (closed_contexts (trace w'))
  /\ audioContextInRef w' <> Some ctxIn
  /\ audioContextOutRef w' <> Some ctxOut.
Proof.
  intros Hok Hi Ho Hm Hd w'.
  assert (Hboth : forall c,
             (c < nextHandle w)%nat ->
             ~ In c (closed_contexts (trace w)) ->
             lost c w').
  { intros c Hc Hx. subst w'.
    change (run (Transport TransportClose :: Click a :: es) w)
      with (run es (final (click a (final (onclose w))))).
    apply run_lost. rewrite onclose_spec.
    change (click a (with_trace (trace w ++ [SetConvState idle])
                       (with_convState idle w)))
      with (startConversation a
              (with_trace (trace w ++ [SetConvState idle])
                 (with_convState idle w))).
    rewrite startConversation_spec. cbv zeta. rewrite Hm, Hd.
    simpl callbacks.
    match goal with
    | |- lost c (final (match connect a with
                         | Fulfilled => Normal tt (with_sessionRef ?h ?x)
                         | Rejected err => _
                         end)) =>
        assert (H2 : lost c x)
    end.
    { apply callbacks_lost. apply lost_acquire; simpl; [exact Hc|].
      rewrite !closed_contexts_app. simpl. now rewrite !app_nil_r. }
    destruct (connect a) as [|err]; simpl final.
    - destruct H2 as (H2a & H2b & H2c & H2d). repeat split; auto.
    - eapply lost_kept; [apply caught_keeps_handles|exact H2]. }
  destruct Hok.
  destruct (Hboth ctxIn (input_known0 _ Hi) (input_open0 _ Hi))
    as (_ & H1 & H2 & _).
  destruct (Hboth ctxOut (output_known0 _ Ho) (output_open0 _ Ho))
    as (_ & H3 & _ & H4).
  auto.
Qed.

End Leaks.

(** ** The further properties at work in a live session *)

(** Two sessions, each ended in its own way. *)
Lemma no_handle_is_closed_twice_witness :
  Handles_ok mount
  /\ NoDup (closed_sessions (trace (Scenes.run Scenes.story mount)))
  /\ NoDup (closed_contexts (trace (Scenes.run Scenes.story mount))).
Proof.
  split; [exact mount_handles|].
  destruct (@no_handle_is_closed_twice Live.audioUtils Scenes.story mount
              mount_handles) as (H1 & H2 & _).
  split; [exact H1|exact H2].
Defined.

Lemma session_state_keeps_its_shape_witness :
  shaped (convState mount) = true
  /\ shaped (convState (Scenes.run Scenes.story mount)) = true.
Proof.
  split; [reflexivity|].
  exact (proj1 (@session_state_keeps_its_shape Live.audioUtils
                  Scenes.story mount eq_refl)).
Defined.

(** The three fragments of the example turn. *)
Lemma fragments_add_up_witness :
  Forall (fun em => turnComplete (snd em) = false
                    /\ @audio_returns Live.audioUtils Live.active (snd em))
    Scenes.spoken
  /\ currentInputTranscriptRef
       (Live.callbacks (server_messages Scenes.spoken) Live.active)
     = (currentInputTranscriptRef Live.active
        ++ joined inputTranscription Scenes.spoken)%string.
Proof.
  assert (H : Forall (fun em => turnComplete (snd em) = false
                     /\ @audio_returns Live.audioUtils Live.active (snd em))
                Scenes.spoken).
  { repeat constructor; intro Hx; discriminate Hx. }
  split; [exact H|].
  exact (proj1 (@fragments_add_up Live.audioUtils Scenes.spoken
                  Live.active H)).
Defined.

(** A garbled chunk that arrives before any session was started. *)
Lemma audio_is_skipped_witness :
  base64Audio (Live.audio Live.garbled) = Value (Some Live.garbled)
  /\ (audioContextOutRef mount = None
      \/ Some Live.garbled = None
      \/ Some Live.garbled = Some "")
  /\ Live.onmessage (Live.at_time 0) (Live.audio Live.garbled) mount
     = Normal tt (after_audio (Live.at_time 0) (Live.audio Live.garbled)
                    mount).
Proof.
  split; [reflexivity|]. split; [left; reflexivity|].
  exact (proj1 (@audio_is_skipped Live.audioUtils (Live.at_time 0)
                  (Live.audio Live.garbled) mount (Some Live.garbled)
                  eq_refl (or_introl eq_refl))).
Defined.

(** A turn end whose model turn has no parts, in a running session with
    the example turn in the buffers. *)
Lemma message_without_parts_is_dropped_witness :
  modelTurn Live.bare_turn_end = Some {| parts := None |}
  /\ parts {| parts := None |} = None
  /\ Live.onmessage (Live.at_time 2) Live.bare_turn_end
       (Live.callbacks Live.fragments Live.active)
     = Throw typeError (Live.callbacks Live.fragments Live.active).
Proof.
  split; [reflexivity|]. split; [reflexivity|].
  exact (proj1 (@message_without_parts_is_dropped Live.audioUtils
                  (Live.at_time 2) Live.bare_turn_end
                  (Live.callbacks Live.fragments Live.active)
                  {| parts := None |} eq_refl eq_refl)).
Defined.

(** A chunk, and a second one long after it. *)
Lemma segments_never_overlap_witness :
  audioContextOutRef Live.active = Some 2%nat
  /\ Live.chunk 2%nat (Live.audio Live.silence)
     = Decoded Live.silence_duration
  /\ interrupted (Live.audio Live.silence) = false
  /\ Forall uninterrupted
       [ServerMessage (Live.at_time 5) (Live.audio Live.silence)]
  /\ starts (new_trace Live.active
               (final (Live.onmessage (Live.at_time 1)
                         (Live.audio Live.silence) Live.active)))
     = [Math_max (nextStartTimeRef Live.active)
          (currentTime (Live.at_time 1))].
Proof.
  assert (H : Forall uninterrupted
                [ServerMessage (Live.at_time 5) (Live.audio Live.silence)])
    by (repeat constructor).
  split; [reflexivity|]. split; [reflexivity|]. split; [reflexivity|].
  split; [exact H|].
  exact (proj1 (@segments_never_overlap Live.audioUtils (Live.at_time 1)
                  (Live.audio Live.silence) Live.active 2%nat
                  Live.silence_duration _ eq_refl eq_refl eq_refl H)).
Defined.

(** A barge-in with a chunk, while three segments are scheduled. *)
Lemma chunk_of_a_barge_in_is_stopped_at_once_witness :
  audioContextOutRef Live.playing = Some 2%nat
  /\ Live.chunk 2%nat Scenes.barge_in_with_chunk
     = Decoded Live.silence_duration
  /\ interrupted Scenes.barge_in_with_chunk = true
  /\ sourcesRef (final (Live.onmessage (Live.at_time 1)
                          Scenes.barge_in_with_chunk Live.playing)) = [].
Proof.
  split; [reflexivity|]. split; [reflexivity|]. split; [reflexivity|].
  destruct (@chunk_of_a_barge_in_is_stopped_at_once Live.audioUtils
              (Live.at_time 1) Scenes.barge_in_with_chunk Live.playing
              2%nat Live.silence_duration eq_refl eq_refl eq_refl)
    as (_ & _ & H & _).
  exact H.
Defined.

Lemma sources_start_and_stop_once_witness :
  Sources_ok mount
  /\ NoDup (started (trace (Scenes.run Scenes.story mount)))
  /\ NoDup (stops (trace (Scenes.run Scenes.story mount))).
Proof.
  split; [exact mount_sources|].
  destruct (@sources_start_and_stop_once Live.audioUtils Scenes.story
              mount mount_sources) as (H1 & H2 & _).
  split; [exact H1|exact H2].
Defined.

Lemma active_sources : Sources_ok Live.active.
Proof.
  constructor; vm_compute; try constructor; intros x [].
Qed.

(** A chunk in a fresh session, and its natural end. *)
Lemma ended_source_leaves_the_set_witness :
  Sources_ok Live.active
  /\ audioContextOutRef Live.active = Some 2%nat
  /\ Live.chunk 2%nat (Live.audio Live.silence)
     = Decoded Live.silence_duration
  /\ interrupted (Live.audio Live.silence) = false
  /\ sourcesRef
       (final (onended (nextHandle Live.active)
                 (final (Live.onmessage (Live.at_time 1)
                           (Live.audio Live.silence) Live.active))))
     = sourcesRef Live.active.
Proof.
  split; [exact active_sources|].
  split; [reflexivity|]. split; [reflexivity|]. split; [reflexivity|].
  exact (proj2 (@ended_source_leaves_the_set Live.audioUtils (Live.at_time 1)
                  (Live.audio Live.silence) Live.active 2%nat
                  Live.silence_duration active_sources eq_refl eq_refl
                  eq_refl)).
Defined.

(** A refused microphone, with its diagnostic in the banner. *)
Lemma failed_start_shows_its_error_witness :
  fails (Live.refused "Permission denied") PermissionError
    {| message := Some "Permission denied" |}
  /\ errorBanner (view (final (Live.startConversation
                                 (Live.refused "Permission denied") mount)))
     = Some "Permission denied".
Proof.
  split; [reflexivity|].
  exact (proj1 (@failed_start_shows_its_error Live.audioUtils
                  (Live.refused "Permission denied") mount PermissionError
                  {| message := Some "Permission denied" |} eq_refl)).
Defined.

(** After the example turn: a remote close, then a new start. *)
Lemma placeholder_never_returns_witness :
  messages Scenes.talked <> []
  /\ placeholder
       (view (Scenes.run [Transport TransportClose; Click Live.granted]
                Scenes.talked))
     = false.
Proof.
  assert (H : messages Scenes.talked <> [])
    by (vm_compute; discriminate).
  split; [exact H|].
  exact (@placeholder_never_returns Live.audioUtils
           [Transport TransportClose; Click Live.granted]
           Scenes.talked H).
Defined.

(** The first start of the page. *)
Lemma start_retains_the_session_it_asked_for_witness :
  getUserMedia Live.granted = Fulfilled
  /\ connect Live.granted = Fulfilled
  /\ exists session ctxIn ctxOut,
       sessionRef (final (Live.startConversation Live.granted mount))
       = Some session
       /\ connects (new_trace mount
                      (final (Live.startConversation Live.granted mount)))
          = [session]
       /\ created_contexts
            (new_trace mount
               (final (Live.startConversation Live.granted mount)))
          = [ctxIn; ctxOut]
       /\ ctxIn <> ctxOut.
Proof.
  split; [reflexivity|]. split; [reflexivity|].
  exact (@start_retains_the_session_it_asked_for Live.audioUtils
           Live.granted mount eq_refl eq_refl).
Defined.

Lemma refused_start_acquires_nothing_witness :
  getUserMedia (Live.refused "Permission denied")
  = Rejected {| message := Some "Permission denied" |}
  /\ connects (new_trace mount
                 (final (Live.startConversation
                           (Live.refused "Permission denied") mount))) = [].
Proof.
  split; [reflexivity|].
  exact (proj1 (@refused_start_acquires_nothing Live.audioUtils
                  (Live.refused "Permission denied") mount
                  {| message := Some "Permission denied" |} eq_refl)).
Defined.

(** The transport refuses to open on the first start of the page. *)
Lemma failed_open_leaves_its_contexts_witness :
  Handles_ok mount
  /\ getUserMedia Scenes.dropped = Fulfilled
  /\ connect Scenes.dropped = Rejected {| message := Some "Network error" |}
  /\ duringConnect Scenes.dropped = []
  /\ exists ctxIn ctxOut,
       created_contexts
         (new_trace mount
            (final (Live.startConversation Scenes.dropped mount)))
       = [ctxIn; ctxOut]
       /\ audioContextInRef
            (final (Live.startConversation Scenes.dropped mount))
          = Some ctxIn
       /\ audioContextOutRef
            (final (Live.startConversation Scenes.dropped mount))
          = Some ctxOut.
Proof.
  split; [exact mount_handles|].
  split; [reflexivity|]. split; [reflexivity|]. split; [reflexivity|].
  destruct (@failed_open_leaves_its_contexts Live.audioUtils
              Scenes.dropped mount {| message := Some "Network error" |}
              mount_handles eq_refl eq_refl eq_refl)
    as (ctxIn & ctxOut & H1 & H2 & H3 & _).
  exists ctxIn, ctxOut. auto.
Defined.

Lemma granted_is_quiet : quiet Live.granted.
Proof. split; repeat constructor. Qed.

(** Three segments are scheduled; the session is stopped and restarted. *)
Lemma restart_keeps_cursor_and_buffers_witness :
  quiet Live.granted
  /\ nextStartTimeRef
       (final (Live.startConversation Live.granted
                 (final (stopConversation Live.playing))))
     = nextStartTimeRef Live.playing.
Proof.
  split; [exact granted_is_quiet|].
  exact (proj1 (@restart_keeps_cursor_and_buffers Live.audioUtils
                  Live.granted Live.playing granted_is_quiet)).
Defined.

(** The same restart, and a first chunk at half a second on the new clock. *)
Lemma stale_cursor_delays_the_next_session_witness :
  quiet Live.granted
  /\ audioContextOutRef
       (final (Live.startConversation Live.granted
                 (final (stopConversation Live.playing)))) = Some 9%nat
  /\ Live.chunk 9%nat (Live.audio Live.silence)
     = Decoded Live.silence_duration
  /\ (currentTime (Live.at_time (1 # 2)) <= nextStartTimeRef Live.playing)%Qc
  /\ starts
       (new_trace
          (final (Live.startConversation Live.granted
                    (final (stopConversation Live.playing))))
          (final (Live.onmessage (Live.at_time (1 # 2))
                    (Live.audio Live.silence)
                    (final (Live.startConversation Live.granted
                              (final (stopConversation Live.playing)))))))
     = [nextStartTimeRef Live.playing].
Proof.
  assert (Hlate : (currentTime (Live.at_time (1 # 2))
                   <= nextStartTimeRef Live.playing)%Qc)
    by (vm_compute; discriminate).
  split; [exact granted_is_quiet|].
  split; [reflexivity|]. split; [reflexivity|]. split; [exact Hlate|].
  exact (@stale_cursor_delays_the_next_session Live.audioUtils Live.granted
           Live.playing (Live.at_time (1 # 2)) (Live.audio Live.silence)
           9%nat Live.silence_duration granted_is_quiet eq_refl eq_refl
           Hlate).
Defined.

Lemma active_handles : Handles_ok Live.active.
Proof. exact (@start_handles Live.audioUtils Live.granted mount mount_handles). Qed.

(** The first session is closed by the remote side; a second one is
    started and then ended with the button. *)
Lemma remote_close_then_restart_leaks_contexts_witness :
  Handles_ok Live.active
  /\ audioContextInRef Live.active = Some 1%nat
  /\ audioContextOutRef Live.active = Some 2%nat
  /\ getUserMedia Live.granted = Fulfilled
  /\ duringGetUserMedia Live.granted = []
  /\ ~ In 1%nat
       (closed_contexts
          (trace (Scenes.run
                    [Transport TransportClose; Click Live.granted;
                     Click Live.granted] Live.active)))
  /\ ~ In 2%nat
       (closed_contexts
          (trace (Scenes.run
                    [Transport TransportClose; Click Live.granted;
                     Click Live.granted] Live.active))).
Proof.
  split; [exact active_handles|].
  split; [reflexivity|]. split; [reflexivity|]. split; [reflexivity|].
  split; [reflexivity|].
  destruct (@remote_close_then_restart_leaks_contexts Live.audioUtils
              Live.granted [Click Live.granted] Live.active 1%nat 2%nat
              active_handles eq_refl eq_refl eq_refl eq_refl)
    as (H1 & H2 & _).
  split; [exact H1|exact H2].
Defined.
